(** * bcec_AtomicRingBufferIndexManager: index management of a lock-free ring buffer

    A shallow embedding of [bcec_atomicringbufferindexmanager.cpp].

    Machine integers.  [unsigned int] and [int] are 32 bits wide
    ([sizeof(int) = 4], the platform the component's bit-layout comments
    describe).  A 32-bit word is carried as the [Z] in [0, 2^32) that is its
    unsigned reading; [wrap32] is the reduction every [unsigned int]
    operation performs and [to_int] is the value an [int] holding the same
    bit pattern has.  Conversions between [int] and [unsigned int] keep the
    bit pattern, so a [bsls::AtomicInt] cell is modelled by the unsigned
    reading of its content and comparisons for equality are made on that.

    Assertions.  [BSLS_ASSERT] and [BSLS_ASSERT_OPT] are taken as checked: a
    call whose assertion fails stops there and returns nothing.

    Header.  The component's header is not among the sources; the three
    things the implementation takes from it ([e_MAX_CAPACITY],
    [nextCombinedIndex], [nextGeneration]) are marked where they are
    defined. *)

From Stdlib Require Import ZArith Lia Bool.
From stdpp Require Import base tactics option list relations.

Local Open Scope Z_scope.

(** ** 32-bit words *)

Definition wrap32 (z : Z) : Z := z mod 2 ^ 32.

Definition to_int (w : Z) : Z := if w <? 2 ^ 31 then w else w - 2 ^ 32.

Definition INT_MAX : Z := 2 ^ 31 - 1.

(** ** The unnamed namespace: element states and bit constants *)

Inductive ElementState : Set :=
| e_EMPTY     (* element is empty and available for writing *)
| e_WRITING   (* element is reserved for writing *)
| e_FULL      (* element has a value in it *)
| e_READING.  (* element is reserved for reading *)

Definition ElementState_value (s : ElementState) : Z :=
  match s with
  | e_EMPTY => 0
  | e_WRITING => 1
  | e_FULL => 2
  | e_READING => 3
  end.

(** The cast [ElementState(x)] of a two-bit value. *)
Definition ElementState_of (x : Z) : ElementState :=
  if x =? 0 then e_EMPTY
  else if x =? 1 then e_WRITING
  else if x =? 2 then e_FULL
  else e_READING.

#[global] Instance ElementState_eq_dec : EqDecision ElementState.
Proof. solve_decision. Defined.

Definition e_ELEMENT_STATE_MASK : Z := 3.
Definition e_GENERATION_COUNT_SHIFT : Z := 2.
Definition e_NUM_REPRESENTABLE_ELEMENT_STATE_GENERATIONS : Z :=
  Z.shiftl 1 (4 * 8 - 2).
Definition e_DISABLED_STATE_MASK : Z := Z.shiftl 1 (4 * 8 - 1).
Definition e_NUM_REPRESENTABLE_COMBINED_INDICES : Z := e_DISABLED_STATE_MASK.

(** [(generation << e_GENERATION_COUNT_SHIFT) | indexState], the shift being
    an [unsigned int] shift. *)
Definition encodeElementState (generation : Z) (indexState : ElementState) : Z :=
  Z.lor (wrap32 (Z.shiftl generation e_GENERATION_COUNT_SHIFT))
        (ElementState_value indexState).

Definition decodeGenerationFromElementState (encodedState : Z) : Z :=
  Z.shiftr encodedState e_GENERATION_COUNT_SHIFT.

Definition decodeStateFromElementState (encodedState : Z) : ElementState :=
  ElementState_of (Z.land encodedState e_ELEMENT_STATE_MASK).

Definition isDisabledFlagSet (encodedPushIndex : Z) : bool :=
  negb (Z.land encodedPushIndex e_DISABLED_STATE_MASK =? 0).

Definition discardDisabledFlag (encodedPushIndex : Z) : Z :=
  Z.land encodedPushIndex (wrap32 (Z.lnot e_DISABLED_STATE_MASK)).

(** ** Class methods *)

(** Modelled from the spec: the class constant [e_MAX_CAPACITY] is declared in
    the component's header, which is not among the sources.  The spec bounds
    the capacity so that the cursor keeps one bit for a generation increment
    and one bit for the disabled flag; the implementation note of the source
    gives the same value, [1 << ((sizeof(int) * 8) - 2)]. *)
Definition e_MAX_CAPACITY : Z := Z.shiftl 1 (4 * 8 - 2).

(** [bsl::min(e_NUM_REPRESENTABLE_COMBINED_INDICES / capacity,
             e_NUM_REPRESENTABLE_ELEMENT_STATE_GENERATIONS)]. *)
Definition numRepresentableGenerations (capacity : Z) : Z :=
  Z.min (e_NUM_REPRESENTABLE_COMBINED_INDICES / capacity)
        e_NUM_REPRESENTABLE_ELEMENT_STATE_GENERATIONS.

(** [circularDifference].  The three [BSLS_ASSERT_OPT] checks guard the body:
    [None] is a failed assertion.  [difference] is an [int]; subtracting or
    adding the [unsigned int] [modulo] is done on 32-bit words and the result
    is returned as an [int]. *)
Definition circularDifference (minuend subtrahend modulo : Z) : option Z :=
  if negb (modulo <=? wrap32 (INT_MAX + 1)) then None
  else if negb (minuend <? modulo) then None
  else if negb (subtrahend <? modulo) then None
  else
    let difference := to_int (wrap32 (minuend - subtrahend)) in
    if difference >? to_int (modulo / 2) then
      Some (to_int (wrap32 (wrap32 difference - modulo)))
    else if difference <? - to_int (modulo / 2) then
      Some (to_int (wrap32 (wrap32 difference + modulo)))
    else Some difference.

(** ** The class *)

Module bcec_AtomicRingBufferIndexManager.

(** Data members.  [d_states] is the array of [d_capacity] atomic integers;
    the padding members and the allocator carry no state of the protocol. *)
Record manager : Type := Manager {
  d_pushIndex : Z;
  d_popIndex : Z;
  d_capacity : Z;
  d_maxGeneration : Z;
  d_maxCombinedIndex : Z;
  d_states : list Z
}.

Definition set_pushIndex (m : manager) (v : Z) : manager :=
  Manager v (d_popIndex m) (d_capacity m) (d_maxGeneration m)
          (d_maxCombinedIndex m) (d_states m).

Definition set_popIndex (m : manager) (v : Z) : manager :=
  Manager (d_pushIndex m) v (d_capacity m) (d_maxGeneration m)
          (d_maxCombinedIndex m) (d_states m).

Definition set_states (m : manager) (l : list Z) : manager :=
  Manager (d_pushIndex m) (d_popIndex m) (d_capacity m) (d_maxGeneration m)
          (d_maxCombinedIndex m) l.

(** *** Atomic accesses

    Each function below is one indivisible access to one atomic integer.
    [testAndSwap] returns the value found and stores [swapValue] only when
    that value is [compareValue].  An access outside the array has no
    defined behaviour in the source and is [None] here. *)

Definition testAndSwap_pushIndex (m : manager) (compareValue swapValue : Z)
  : Z * manager :=
  (d_pushIndex m,
   if d_pushIndex m =? compareValue then set_pushIndex m swapValue else m).

Definition testAndSwap_popIndex (m : manager) (compareValue swapValue : Z)
  : Z * manager :=
  (d_popIndex m,
   if d_popIndex m =? compareValue then set_popIndex m swapValue else m).

Definition load_state (m : manager) (index : Z) : option Z :=
  d_states m !! Z.to_nat index.

Definition store_state (m : manager) (index value : Z) : option manager :=
  match d_states m !! Z.to_nat index with
  | Some _ => Some (set_states m (<[Z.to_nat index := value]> (d_states m)))
  | None => None
  end.

Definition testAndSwap_state (m : manager) (index compareValue swapValue : Z)
  : option (Z * manager) :=
  match d_states m !! Z.to_nat index with
  | Some was =>
      Some (was,
            if was =? compareValue
            then set_states m (<[Z.to_nat index := swapValue]> (d_states m))
            else m)
  | None => None
  end.

(** *** Private accessors *)

(** Modelled from the spec: [nextCombinedIndex] is an inline private accessor
    defined in the component's header, which is not among the sources.  The
    spec gives [nextCombinedIndex(ci) = (ci + 1) mod (maxCombinedIndex + 1)]. *)
Definition nextCombinedIndex (m : manager) (combinedIndex : Z) : Z :=
  (combinedIndex + 1) mod (d_maxCombinedIndex m + 1).

(** Modelled from the spec: [nextGeneration] is an inline private accessor
    defined in the component's header, which is not among the sources.  The
    spec gives [nextGeneration(g) = (g + 1) mod (maxGeneration + 1)]. *)
Definition nextGeneration (m : manager) (generation : Z) : Z :=
  (generation + 1) mod (d_maxGeneration m + 1).

(** *** Creator

    The two [BSLS_ASSERT_OPT] checks of the constructor reject a capacity of
    zero or one above [e_MAX_CAPACITY].  Default-constructed atomic integers
    hold 0, the encoding of generation 0 in state [e_EMPTY]. *)
Definition create (capacity : Z) : option manager :=
  if (0 <? capacity) && (capacity <=? e_MAX_CAPACITY) then
    Some {| d_pushIndex := 0;
            d_popIndex := 0;
            d_capacity := capacity;
            d_maxGeneration := wrap32 (numRepresentableGenerations capacity - 1);
            d_maxCombinedIndex :=
              wrap32 (wrap32 (numRepresentableGenerations capacity * capacity) - 1);
            d_states := replicate (Z.to_nat capacity) 0 |}
  else None.

(** *** Results of calls *)

Definition e_SUCCESS : Z := 0.
Definition e_QUEUE_FULL : Z := 1.
Definition e_DISABLED_QUEUE : Z := -1.
Definition e_QUEUE_EMPTY : Z := 1.
Definition e_FAILURE : Z := -1.

(** What a reserving call hands back: status 0 together with the two output
    arguments, or a non-zero status with the output arguments untouched. *)
Inductive reservation : Type :=
| Reserved (generation index : Z)
| Refused (status : Z).

Definition status_of (r : reservation) : Z :=
  match r with
  | Reserved _ _ => e_SUCCESS
  | Refused status => status
  end.

(** A call either returns or stops at a failed assertion. *)
Inductive outcome (R : Type) : Type :=
| Returned (r : R)
| AssertionFailed.
Arguments Returned {R} r.
Arguments AssertionFailed {R}.

(** *** Running a call to completion

    The manipulators are loops around atomic accesses.  Each is written as a
    transition function over the points of its control flow that sit between
    two atomic accesses, so that one transition performs at most one access
    to shared state; the same transition functions drive the sequential
    execution [run] here and the interleaved execution further down. *)
Section Run.
Context {pc R : Type}.
Variable step : manager -> pc -> manager * pc.
Variable final : pc -> option (outcome R).

Fixpoint run (fuel : nat) (m : manager) (p : pc) : option (outcome R * manager) :=
  match final p with
  | Some o => Some (o, m)
  | None =>
      match fuel with
      | O => None
      | S fuel' => let '(m', p') := step m p in run fuel' m' p'
      end
  end.
End Run.

(** The configuration a call is in after a given number of transitions,
    whether or not it has returned by then: [run] follows the same
    transitions and stops at the first final control point. *)
Section Steps.
Context {pc : Type}.
Variable step : manager -> pc -> manager * pc.

Fixpoint steps (n : nat) (m : manager) (p : pc) : manager * pc :=
  match n with
  | O => (m, p)
  | S n' => let '(m', p') := step m p in steps n' m' p'
  end.
End Steps.

(** *** reservePushIndex *)

Inductive push_pc : Type :=
| PushLoad                                          (* [d_pushIndex.loadRelaxed()] before the loop *)
| PushLoop (loadedPushIndex : Z)                    (* top of [for (;;)] *)
| PushReload                                        (* after [yield()]: reload and [continue] *)
| PushAdvance (combinedIndex : Z)                   (* [testAndSwap] of the cursor inside the loop *)
| PushFinish (combinedIndex generation index : Z)   (* [testAndSwap] of the cursor after the loop *)
| PushRet (r : reservation)
| PushAbort.

Definition push_final (p : push_pc) : option (outcome reservation) :=
  match p with
  | PushRet r => Some (Returned r)
  | PushAbort => Some AssertionFailed
  | _ => None
  end.

Definition reservePushIndex_step (m : manager) (p : push_pc) : manager * push_pc :=
  match p with
  | PushLoad => (m, PushLoop (d_pushIndex m))
  | PushLoop loadedPushIndex =>
      if isDisabledFlagSet loadedPushIndex then
        (m, PushRet (Refused e_DISABLED_QUEUE))
      else
        let combinedIndex := discardDisabledFlag loadedPushIndex in
        let currGeneration := combinedIndex / d_capacity m in
        let currIndex := combinedIndex mod d_capacity m in
        let compare := encodeElementState currGeneration e_EMPTY in
        let swap := encodeElementState currGeneration e_WRITING in
        match testAndSwap_state m currIndex compare swap with
        | None => (m, PushAbort)
        | Some (was, m') =>
            if compare =? was then
              (m', PushFinish combinedIndex currGeneration currIndex)
            else
              let elementGeneration := decodeGenerationFromElementState was in
              let difference :=
                to_int (wrap32 (currGeneration - elementGeneration)) in
              if (1 =? difference)
                 || (wrap32 (- d_maxGeneration m) =? wrap32 difference)
              then
                match circularDifference currGeneration elementGeneration
                                         (wrap32 (d_maxGeneration m + 1)) with
                | Some 1 =>
                    match decodeStateFromElementState was with
                    | e_READING => (m', PushReload)
                    | _ => (m', PushRet (Refused e_QUEUE_FULL))
                    end
                | _ => (m', PushAbort)
                end
              else (m', PushAdvance combinedIndex)
        end
  | PushReload => (m, PushLoop (d_pushIndex m))
  | PushAdvance combinedIndex =>
      let next := nextCombinedIndex m combinedIndex in
      let '(old, m') := testAndSwap_pushIndex m combinedIndex next in
      (m', PushLoop old)
  | PushFinish combinedIndex generation index =>
      let next := nextCombinedIndex m combinedIndex in
      let '(_, m') := testAndSwap_pushIndex m combinedIndex next in
      (m', PushRet (Reserved generation index))
  | PushRet _ | PushAbort => (m, p)
  end.

Definition reservePushIndex (fuel : nat) (m : manager)
  : option (outcome reservation * manager) :=
  run reservePushIndex_step push_final fuel m PushLoad.

(** *** commitPushIndex and commitPopIndex

    Four assertions, two of which read the element's state, then the store. *)

Inductive commit_pc : Type :=
| CommitEnter (generation index : Z)
| CommitCheck (generation index : Z)
| CommitStore (generation index : Z)
| CommitRet
| CommitAbort.

Definition commit_final (p : commit_pc) : option (outcome unit) :=
  match p with
  | CommitRet => Some (Returned tt)
  | CommitAbort => Some AssertionFailed
  | _ => None
  end.

(** The control flow the two commits share: [held] is the state the caller's
    reservation put the element in and [stored generation] the word written. *)
Definition commit_step (held : ElementState) (stored : manager -> Z -> Z)
    (m : manager) (p : commit_pc) : manager * commit_pc :=
  match p with
  | CommitEnter generation index =>
      if negb (generation <=? d_maxGeneration m) then (m, CommitAbort)
      else if negb (index <? d_capacity m) then (m, CommitAbort)
      else
        match load_state m index with
        | Some w =>
            if decide (held = decodeStateFromElementState w)
            then (m, CommitCheck generation index)
            else (m, CommitAbort)
        | None => (m, CommitAbort)
        end
  | CommitCheck generation index =>
      match load_state m index with
      | Some w =>
          if generation =? decodeGenerationFromElementState w
          then (m, CommitStore generation index)
          else (m, CommitAbort)
      | None => (m, CommitAbort)
      end
  | CommitStore generation index =>
      match store_state m index (stored m generation) with
      | Some m' => (m', CommitRet)
      | None => (m, CommitAbort)
      end
  | CommitRet | CommitAbort => (m, p)
  end.

Definition commitPushIndex_step : manager -> commit_pc -> manager * commit_pc :=
  commit_step e_WRITING (fun _ generation => encodeElementState generation e_FULL).

Definition commitPopIndex_step : manager -> commit_pc -> manager * commit_pc :=
  commit_step e_READING
    (fun m generation => encodeElementState (nextGeneration m generation) e_EMPTY).

Definition commitPushIndex (fuel : nat) (m : manager) (generation index : Z)
  : option (outcome unit * manager) :=
  run commitPushIndex_step commit_final fuel m (CommitEnter generation index).

Definition commitPopIndex (fuel : nat) (m : manager) (generation index : Z)
  : option (outcome unit * manager) :=
  run commitPopIndex_step commit_final fuel m (CommitEnter generation index).

(** *** reservePopIndex *)

Inductive pop_pc : Type :=
| PopLoad
| PopLoop (loadedPopIndex : Z)
| PopReload
| PopAdvance (loadedPopIndex : Z)
| PopFinish (loadedPopIndex generation index : Z)
| PopRet (r : reservation)
| PopAbort.

Definition pop_final (p : pop_pc) : option (outcome reservation) :=
  match p with
  | PopRet r => Some (Returned r)
  | PopAbort => Some AssertionFailed
  | _ => None
  end.

Definition reservePopIndex_step (m : manager) (p : pop_pc) : manager * pop_pc :=
  match p with
  | PopLoad => (m, PopLoop (d_popIndex m))
  | PopLoop loadedPopIndex =>
      let currGeneration := loadedPopIndex / d_capacity m in
      let currIndex := loadedPopIndex mod d_capacity m in
      let compare := encodeElementState currGeneration e_FULL in
      let swap := encodeElementState currGeneration e_READING in
      match testAndSwap_state m currIndex compare swap with
      | None => (m, PopAbort)
      | Some (was, m') =>
          if compare =? was then
            (m', PopFinish loadedPopIndex currGeneration currIndex)
          else if negb (currGeneration =? decodeGenerationFromElementState was)
          then (m', PopRet (Refused e_QUEUE_EMPTY))
          else
            match decodeStateFromElementState was with
            | e_EMPTY => (m', PopRet (Refused e_QUEUE_EMPTY))
            | e_WRITING | e_FULL => (m', PopReload)
            | e_READING => (m', PopAdvance loadedPopIndex)
            end
      end
  | PopReload => (m, PopLoop (d_popIndex m))
  | PopAdvance loadedPopIndex =>
      let next := nextCombinedIndex m loadedPopIndex in
      let '(old, m') := testAndSwap_popIndex m loadedPopIndex next in
      (m', PopLoop old)
  | PopFinish loadedPopIndex generation index =>
      let '(_, m') :=
        testAndSwap_popIndex m loadedPopIndex
                             (nextCombinedIndex m loadedPopIndex) in
      (m', PopRet (Reserved generation index))
  | PopRet _ | PopAbort => (m, p)
  end.

Definition reservePopIndex (fuel : nat) (m : manager)
  : option (outcome reservation * manager) :=
  run reservePopIndex_step pop_final fuel m PopLoad.

(** *** disable, enable, isEnabled *)

Inductive flag_pc : Type :=
| FlagLoad                   (* [pushIndex = d_pushIndex] at the top of the loop *)
| FlagSwap (pushIndex : Z)   (* the [testAndSwap] *)
| FlagRet.

Definition flag_final (p : flag_pc) : option (outcome unit) :=
  match p with
  | FlagRet => Some (Returned tt)
  | _ => None
  end.

Definition disable_step (m : manager) (p : flag_pc) : manager * flag_pc :=
  match p with
  | FlagLoad =>
      let pushIndex := d_pushIndex m in
      if isDisabledFlagSet pushIndex then (m, FlagRet) else (m, FlagSwap pushIndex)
  | FlagSwap pushIndex =>
      let '(old, m') :=
        testAndSwap_pushIndex m pushIndex (Z.lor pushIndex e_DISABLED_STATE_MASK) in
      if pushIndex =? old then (m', FlagRet) else (m', FlagLoad)
  | FlagRet => (m, p)
  end.

Definition enable_step (m : manager) (p : flag_pc) : manager * flag_pc :=
  match p with
  | FlagLoad =>
      let pushIndex := d_pushIndex m in
      if negb (isDisabledFlagSet pushIndex) then (m, FlagRet)
      else (m, FlagSwap pushIndex)
  | FlagSwap pushIndex =>
      let '(old, m') :=
        testAndSwap_pushIndex m pushIndex
          (Z.land pushIndex (wrap32 (Z.lnot e_DISABLED_STATE_MASK))) in
      if pushIndex =? old then (m', FlagRet) else (m', FlagLoad)
  | FlagRet => (m, p)
  end.

Definition disable (fuel : nat) (m : manager) : option (outcome unit * manager) :=
  run disable_step flag_final fuel m FlagLoad.

Definition enable (fuel : nat) (m : manager) : option (outcome unit * manager) :=
  run enable_step flag_final fuel m FlagLoad.

Definition isEnabled (m : manager) : bool := negb (isDisabledFlagSet (d_pushIndex m)).

(** *** clearPopIndex

    [endCombinedIndex - loadedCombinedIndex] is a subtraction of two
    [unsigned int]; its 32-bit result initialises the 64-bit [difference], to
    which [d_maxCombinedIndex + 1] (again an [unsigned int]) is added in the
    special case. *)

Inductive clear_pc : Type :=
| ClearLoad
| ClearLoop (loadedCombinedIndex : Z)
| ClearReload
| ClearAdvance (loadedCombinedIndex : Z)
| ClearFinish (loadedCombinedIndex disposedGeneration disposedIndex : Z)
| ClearStore (disposedGeneration disposedIndex : Z)
| ClearRet (r : reservation)
| ClearAbort.

Definition clear_final (p : clear_pc) : option (outcome reservation) :=
  match p with
  | ClearRet r => Some (Returned r)
  | ClearAbort => Some AssertionFailed
  | _ => None
  end.

(** The value [difference] has when it is tested against 0. *)
Definition clearPopIndex_difference (m : manager)
    (endGeneration endIndex loadedCombinedIndex : Z) : Z :=
  let endCombinedIndex := wrap32 (wrap32 (endGeneration * d_capacity m) + endIndex) in
  let difference := wrap32 (endCombinedIndex - loadedCombinedIndex) in
  if (wrap32 (d_maxCombinedIndex m - d_capacity m) <=? loadedCombinedIndex)
     && (endCombinedIndex <? d_capacity m)
  then difference + wrap32 (d_maxCombinedIndex m + 1)
  else difference.

Definition clearPopIndex_step (endGeneration endIndex : Z)
    (m : manager) (p : clear_pc) : manager * clear_pc :=
  match p with
  | ClearLoad =>
      if negb (endGeneration <=? d_maxGeneration m) then (m, ClearAbort)
      else if negb (endIndex <? d_capacity m) then (m, ClearAbort)
      else (m, ClearLoop (d_popIndex m))
  | ClearLoop loadedCombinedIndex =>
      if clearPopIndex_difference m endGeneration endIndex loadedCombinedIndex <=? 0
      then (m, ClearRet (Refused e_FAILURE))
      else
        let currentIndex := loadedCombinedIndex mod d_capacity m in
        let currentGeneration := loadedCombinedIndex / d_capacity m in
        let compare := encodeElementState currentGeneration e_FULL in
        let swap := encodeElementState currentGeneration e_READING in
        match testAndSwap_state m currentIndex compare swap with
        | None => (m, ClearAbort)
        | Some (was, m') =>
            if compare =? was then
              (m', ClearFinish loadedCombinedIndex currentGeneration currentIndex)
            else
              match decodeStateFromElementState was with
              | e_WRITING | e_FULL => (m', ClearReload)
              | _ => (m', ClearAdvance loadedCombinedIndex)
              end
        end
  | ClearReload => (m, ClearLoop (d_popIndex m))
  | ClearAdvance loadedCombinedIndex =>
      let next := nextCombinedIndex m loadedCombinedIndex in
      let '(old, m') := testAndSwap_popIndex m loadedCombinedIndex next in
      (m', ClearLoop old)
  | ClearFinish loadedCombinedIndex disposedGeneration disposedIndex =>
      let '(_, m') :=
        testAndSwap_popIndex m loadedCombinedIndex
                             (nextCombinedIndex m loadedCombinedIndex) in
      (m', ClearStore disposedGeneration disposedIndex)
  | ClearStore disposedGeneration disposedIndex =>
      match store_state m disposedIndex
              (encodeElementState (nextGeneration m disposedGeneration) e_EMPTY) with
      | Some m' => (m', ClearRet (Reserved disposedGeneration disposedIndex))
      | None => (m, ClearAbort)
      end
  | ClearRet _ | ClearAbort => (m, p)
  end.

Definition clearPopIndex (fuel : nat) (m : manager) (endGeneration endIndex : Z)
  : option (outcome reservation * manager) :=
  run (clearPopIndex_step endGeneration endIndex) clear_final fuel m ClearLoad.

(** *** length

    [lengthFrom] is the body of [length] after its two loads, as a function of
    the two loaded words.  [None] is a failed [BSLS_ASSERT_OPT]:
    each of the two unlikely branches first asserts the sign of the
    circular difference.  [difference > d_capacity] compares an [int] with an
    [unsigned int], hence on 32-bit words; [difference += d_maxCombinedIndex
    + 1] adds on 32-bit words and converts back to [int]. *)
Definition lengthFrom (m : manager) (loadedPushIndex loadedPopIndex : Z) : option Z :=
  let combinedPushIndex := discardDisabledFlag loadedPushIndex in
  let combinedPopIndex := loadedPopIndex in
  let difference := to_int (wrap32 (combinedPushIndex - combinedPopIndex)) in
  if difference >=? 0 then
    if wrap32 difference >? d_capacity m then
      match circularDifference combinedPushIndex combinedPopIndex
                               (wrap32 (d_maxCombinedIndex m + 1)) with
      | Some c => if 0 >? c then Some 0 else None
      | None => None
      end
    else Some (wrap32 difference)
  else if difference <? - to_int (d_maxCombinedIndex m / 2) then
    match circularDifference combinedPushIndex combinedPopIndex
                             (wrap32 (d_maxCombinedIndex m + 1)) with
    | Some c =>
        if 0 <? c then
          let difference' :=
            to_int (wrap32 (wrap32 difference + wrap32 (d_maxCombinedIndex m + 1))) in
          Some (Z.min (wrap32 difference') (d_capacity m))
        else None
    | None => None
    end
  else Some 0.

Definition length (m : manager) : option Z :=
  lengthFrom m (d_pushIndex m) (d_popIndex m).

Definition capacity (m : manager) : Z := d_capacity m.

(** *** abortPushIndexReservation

    Five assertions (the third reads the pop cursor, the fourth and the fifth
    read the element), then the load of the pop cursor, its [testAndSwap] and
    the store into the element. *)

Inductive abort_pc : Type :=
| AbortEnter (generation index : Z)
| AbortCheckState (generation index : Z)
| AbortCheckGeneration (generation index : Z)
| AbortLoad (generation index : Z)
| AbortSwap (generation index loadedPopIndex : Z)
| AbortStore (generation index : Z)
| AbortRet
| AbortAbort.

Definition abort_final (p : abort_pc) : option (outcome unit) :=
  match p with
  | AbortRet => Some (Returned tt)
  | AbortAbort => Some AssertionFailed
  | _ => None
  end.

Definition abortPushIndexReservation_step (m : manager) (p : abort_pc)
  : manager * abort_pc :=
  match p with
  | AbortEnter generation index =>
      if negb (generation <=? d_maxGeneration m) then (m, AbortAbort)
      else if negb (index <? d_capacity m) then (m, AbortAbort)
      else if d_popIndex m =? wrap32 (wrap32 (generation * d_capacity m) + index)
      then (m, AbortCheckState generation index)
      else (m, AbortAbort)
  | AbortCheckState generation index =>
      match load_state m index with
      | Some w =>
          if decide (e_WRITING = decodeStateFromElementState w)
          then (m, AbortCheckGeneration generation index)
          else (m, AbortAbort)
      | None => (m, AbortAbort)
      end
  | AbortCheckGeneration generation index =>
      match load_state m index with
      | Some w =>
          if generation =? decodeGenerationFromElementState w
          then (m, AbortLoad generation index)
          else (m, AbortAbort)
      | None => (m, AbortAbort)
      end
  | AbortLoad generation index => (m, AbortSwap generation index (d_popIndex m))
  | AbortSwap generation index loadedPopIndex =>
      let nextIndex := nextCombinedIndex m loadedPopIndex in
      let '(_, m') := testAndSwap_popIndex m loadedPopIndex nextIndex in
      (m', AbortStore generation index)
  | AbortStore generation index =>
      match store_state m index
              (encodeElementState (nextGeneration m generation) e_EMPTY) with
      | Some m' => (m', AbortRet)
      | None => (m, AbortAbort)
      end
  | AbortRet | AbortAbort => (m, p)
  end.

Definition abortPushIndexReservation (fuel : nat) (m : manager) (generation index : Z)
  : option (outcome unit * manager) :=
  run abortPushIndexReservation_step abort_final fuel m (AbortEnter generation index).

(** *** Derived notions used in the statements *)

(** The constants of [m] are the ones the constructor derives from a capacity
    it accepts. *)
Definition constants_ok (m : manager) : Prop :=
  0 < d_capacity m <= e_MAX_CAPACITY
  /\ d_maxGeneration m = numRepresentableGenerations (d_capacity m) - 1
  /\ d_maxCombinedIndex m
     = numRepresentableGenerations (d_capacity m) * d_capacity m - 1.

(** The members that only the constructor sets, and the size of the array. *)
Definition frame (m : manager) : Z * Z * Z * nat :=
  (d_capacity m, d_maxGeneration m, d_maxCombinedIndex m, List.length (d_states m)).

(** The pairs of loaded cursor words at which one of the two assertions in
    [length] does not hold, in terms of the plain difference of the two
    combined indices. *)
Definition length_assertion_fails (m : manager) (loadedPushIndex loadedPopIndex : Z)
  : bool :=
  let d := discardDisabledFlag loadedPushIndex - loadedPopIndex in
  let half := (d_maxCombinedIndex m + 1) / 2 in
  ((d_capacity m <? d) && (d <=? half))
  || ((d =? - half) && (d_maxCombinedIndex m / 2 <? half)).

(** The signed distance the description of [clearPopIndex] speaks of: the
    end boundary's combined index minus the pop cursor's, as integers, plus
    [d_maxCombinedIndex + 1] when the cursor is within one capacity of
    [d_maxCombinedIndex] and the boundary is below the capacity.  This
    follows the words of the description; [clearPopIndex_difference] above is
    what the source computes. *)
Definition described_signed_distance (m : manager) (endGeneration endIndex : Z) : Z :=
  let endCombinedIndex := endGeneration * d_capacity m + endIndex in
  let distance := endCombinedIndex - d_popIndex m in
  if (d_maxCombinedIndex m - d_capacity m <=? d_popIndex m)
     && (endCombinedIndex <? d_capacity m)
  then distance + (d_maxCombinedIndex m + 1)
  else distance.

(** A reservation followed, when it succeeds, by the commit of what was
    reserved: one element pushed, or one element popped. *)
Definition reserve_then_commit
    (reserve : nat -> manager -> option (outcome reservation * manager))
    (commit : nat -> manager -> Z -> Z -> option (outcome unit * manager))
    (fuel : nat) (m : manager) : option (outcome reservation * manager) :=
  match reserve fuel m with
  | Some (Returned (Reserved generation index), m1) =>
      match commit fuel m1 generation index with
      | Some (Returned _, m2) => Some (Returned (Reserved generation index), m2)
      | Some (AssertionFailed, m2) => Some (AssertionFailed, m2)
      | None => None
      end
  | other => other
  end.

Definition pushOne : nat -> manager -> option (outcome reservation * manager) :=
  reserve_then_commit reservePushIndex commitPushIndex.

Definition popOne : nat -> manager -> option (outcome reservation * manager) :=
  reserve_then_commit reservePopIndex commitPopIndex.

(** *** Threads

    A client thread calls the manipulators one after the other.  Between a
    successful [reservePushIndex] and the matching [commitPushIndex] it fills
    the element ([T_writing]); between a successful [reservePopIndex] and the
    matching [commitPopIndex] it empties it ([T_reading]).  The commits are
    called with the generation and index the reservation returned, which is
    their documented precondition.  Inside a call the thread is at a control
    point of that call. *)

Inductive thread : Type :=
| T_idle
| T_reservePush (p : push_pc)
| T_writing (generation index : Z)
| T_commitPush (p : commit_pc)
| T_reservePop (p : pop_pc)
| T_reading (generation index : Z)
| T_commitPop (p : commit_pc)
| T_clearPop (endGeneration endIndex : Z) (p : clear_pc)
| T_disable (p : flag_pc)
| T_enable (p : flag_pc)
| T_stopped.

(** One transition of one thread: a call, one transition inside a call, or a
    return.  A failed assertion stops the thread. *)
Inductive thread_step : manager -> thread -> manager -> thread -> Prop :=
| call_reservePush m :
    thread_step m T_idle m (T_reservePush PushLoad)
| exec_reservePush m p :
    push_final p = None ->
    thread_step m (T_reservePush p)
                (reservePushIndex_step m p).1 (T_reservePush (reservePushIndex_step m p).2)
| ret_reservePush_reserved m generation index :
    thread_step m (T_reservePush (PushRet (Reserved generation index)))
                m (T_writing generation index)
| ret_reservePush_refused m status :
    thread_step m (T_reservePush (PushRet (Refused status))) m T_idle
| stop_reservePush m :
    thread_step m (T_reservePush PushAbort) m T_stopped
| call_commitPush m generation index :
    thread_step m (T_writing generation index)
                m (T_commitPush (CommitEnter generation index))
| exec_commitPush m p :
    commit_final p = None ->
    thread_step m (T_commitPush p)
                (commitPushIndex_step m p).1 (T_commitPush (commitPushIndex_step m p).2)
| ret_commitPush m :
    thread_step m (T_commitPush CommitRet) m T_idle
| stop_commitPush m :
    thread_step m (T_commitPush CommitAbort) m T_stopped
| call_reservePop m :
    thread_step m T_idle m (T_reservePop PopLoad)
| exec_reservePop m p :
    pop_final p = None ->
    thread_step m (T_reservePop p)
                (reservePopIndex_step m p).1 (T_reservePop (reservePopIndex_step m p).2)
| ret_reservePop_reserved m generation index :
    thread_step m (T_reservePop (PopRet (Reserved generation index)))
                m (T_reading generation index)
| ret_reservePop_refused m status :
    thread_step m (T_reservePop (PopRet (Refused status))) m T_idle
| stop_reservePop m :
    thread_step m (T_reservePop PopAbort) m T_stopped
| call_commitPop m generation index :
    thread_step m (T_reading generation index)
                m (T_commitPop (CommitEnter generation index))
| exec_commitPop m p :
    commit_final p = None ->
    thread_step m (T_commitPop p)
                (commitPopIndex_step m p).1 (T_commitPop (commitPopIndex_step m p).2)
| ret_commitPop m :
    thread_step m (T_commitPop CommitRet) m T_idle
| stop_commitPop m :
    thread_step m (T_commitPop CommitAbort) m T_stopped
| call_clearPop m endGeneration endIndex :
    thread_step m T_idle m (T_clearPop endGeneration endIndex ClearLoad)
| exec_clearPop m endGeneration endIndex p :
    clear_final p = None ->
    thread_step m (T_clearPop endGeneration endIndex p)
                (clearPopIndex_step endGeneration endIndex m p).1
                (T_clearPop endGeneration endIndex
                            (clearPopIndex_step endGeneration endIndex m p).2)
| ret_clearPop m endGeneration endIndex r :
    thread_step m (T_clearPop endGeneration endIndex (ClearRet r)) m T_idle
| stop_clearPop m endGeneration endIndex :
    thread_step m (T_clearPop endGeneration endIndex ClearAbort) m T_stopped
| call_disable m :
    thread_step m T_idle m (T_disable FlagLoad)
| exec_disable m p :
    flag_final p = None ->
    thread_step m (T_disable p) (disable_step m p).1 (T_disable (disable_step m p).2)
| ret_disable m :
    thread_step m (T_disable FlagRet) m T_idle
| call_enable m :
    thread_step m T_idle m (T_enable FlagLoad)
| exec_enable m p :
    flag_final p = None ->
    thread_step m (T_enable p) (enable_step m p).1 (T_enable (enable_step m p).2)
| ret_enable m :
    thread_step m (T_enable FlagRet) m T_idle
(* The cursors are read with [loadRelaxed], which need not return the latest
   value stored: besides the transitions above, which read the current value,
   a relaxed load may hand the thread any word. *)
| relaxed_reservePush_load m w :
    thread_step m (T_reservePush PushLoad) m (T_reservePush (PushLoop w))
| relaxed_reservePush_reload m w :
    thread_step m (T_reservePush PushReload) m (T_reservePush (PushLoop w))
| relaxed_reservePop_load m w :
    thread_step m (T_reservePop PopLoad) m (T_reservePop (PopLoop w))
| relaxed_reservePop_reload m w :
    thread_step m (T_reservePop PopReload) m (T_reservePop (PopLoop w))
| relaxed_clearPop_load m endGeneration endIndex w :
    (endGeneration <=? d_maxGeneration m) = true ->
    (endIndex <? d_capacity m) = true ->
    thread_step m (T_clearPop endGeneration endIndex ClearLoad)
                m (T_clearPop endGeneration endIndex (ClearLoop w))
| relaxed_clearPop_reload m endGeneration endIndex w :
    thread_step m (T_clearPop endGeneration endIndex ClearReload)
                m (T_clearPop endGeneration endIndex (ClearLoop w)).

(** The same transitions as a function: the only choice a thread has is
    which manipulator to call when it is idle. *)
Inductive call : Type :=
| Call_reservePush
| Call_reservePop
| Call_clearPop (endGeneration endIndex : Z)
| Call_disable
| Call_enable.

Definition thread_next (choice : call) (m : manager) (th : thread)
  : option (manager * thread) :=
  match th with
  | T_idle =>
      Some (m, match choice with
               | Call_reservePush => T_reservePush PushLoad
               | Call_reservePop => T_reservePop PopLoad
               | Call_clearPop endGeneration endIndex =>
                   T_clearPop endGeneration endIndex ClearLoad
               | Call_disable => T_disable FlagLoad
               | Call_enable => T_enable FlagLoad
               end)
  | T_reservePush (PushRet (Reserved generation index)) =>
      Some (m, T_writing generation index)
  | T_reservePush (PushRet (Refused _)) => Some (m, T_idle)
  | T_reservePush PushAbort => Some (m, T_stopped)
  | T_reservePush p =>
      Some ((reservePushIndex_step m p).1, T_reservePush (reservePushIndex_step m p).2)
  | T_writing generation index => Some (m, T_commitPush (CommitEnter generation index))
  | T_commitPush CommitRet => Some (m, T_idle)
  | T_commitPush CommitAbort => Some (m, T_stopped)
  | T_commitPush p =>
      Some ((commitPushIndex_step m p).1, T_commitPush (commitPushIndex_step m p).2)
  | T_reservePop (PopRet (Reserved generation index)) =>
      Some (m, T_reading generation index)
  | T_reservePop (PopRet (Refused _)) => Some (m, T_idle)
  | T_reservePop PopAbort => Some (m, T_stopped)
  | T_reservePop p =>
      Some ((reservePopIndex_step m p).1, T_reservePop (reservePopIndex_step m p).2)
  | T_reading generation index => Some (m, T_commitPop (CommitEnter generation index))
  | T_commitPop CommitRet => Some (m, T_idle)
  | T_commitPop CommitAbort => Some (m, T_stopped)
  | T_commitPop p =>
      Some ((commitPopIndex_step m p).1, T_commitPop (commitPopIndex_step m p).2)
  | T_clearPop _ _ (ClearRet _) => Some (m, T_idle)
  | T_clearPop _ _ ClearAbort => Some (m, T_stopped)
  | T_clearPop endGeneration endIndex p =>
      Some ((clearPopIndex_step endGeneration endIndex m p).1,
            T_clearPop endGeneration endIndex
                       (clearPopIndex_step endGeneration endIndex m p).2)
  | T_disable FlagRet => Some (m, T_idle)
  | T_disable p => Some ((disable_step m p).1, T_disable (disable_step m p).2)
  | T_enable FlagRet => Some (m, T_idle)
  | T_enable p => Some ((enable_step m p).1, T_enable (enable_step m p).2)
  | T_stopped => None
  end.

(** The manager shared by a pool of threads; any thread may move next. *)
Definition config : Type := manager * list thread.

Inductive step : config -> config -> Prop :=
| step_thread m ts t th m' th' :
    ts !! t = Some th ->
    thread_step m th m' th' ->
    step (m, ts) (m', <[t := th']> ts).

Definition initial (capacity : Z) (N : nat) : option config :=
  match create capacity with
  | Some m => Some (m, replicate N T_idle)
  | None => None
  end.

Definition reachable (capacity : Z) (N : nat) (c : config) : Prop :=
  exists c0, initial capacity N = Some c0 /\ rtc step c0 c.

(** A schedule names, turn by turn, the thread that moves and the call it
    makes if it is idle. *)
Fixpoint schedule (turns : list (nat * call)) (c : config) : option config :=
  match turns with
  | [] => Some c
  | (t, choice) :: turns' =>
      match c.2 !! t with
      | Some th =>
          match thread_next choice c.1 th with
          | Some (m', th') => schedule turns' (m', <[t := th']> c.2)
          | None => None
          end
      | None => None
      end
  end.

(** The reservation a thread holds, if any: from the [testAndSwap] of the
    element's state that succeeded until the store that gives the element
    up.  [e_WRITING] is a push reservation, [e_READING] a pop reservation. *)
Definition owns (th : thread) : option (ElementState * Z * Z) :=
  match th with
  | T_reservePush (PushFinish _ generation index)
  | T_reservePush (PushRet (Reserved generation index))
  | T_writing generation index
  | T_commitPush (CommitEnter generation index)
  | T_commitPush (CommitCheck generation index)
  | T_commitPush (CommitStore generation index) =>
      Some (e_WRITING, generation, index)
  | T_reservePop (PopFinish _ generation index)
  | T_reservePop (PopRet (Reserved generation index))
  | T_reading generation index
  | T_commitPop (CommitEnter generation index)
  | T_commitPop (CommitCheck generation index)
  | T_commitPop (CommitStore generation index)
  | T_clearPop _ _ (ClearFinish _ generation index)
  | T_clearPop _ _ (ClearStore generation index) =>
      Some (e_READING, generation, index)
  | _ => None
  end.

Definition holds (c : config) (t : nat) (s : ElementState) (generation index : Z)
  : Prop :=
  exists th, c.2 !! t = Some th /\ owns th = Some (s, generation, index).

(** No reservation is held by two threads at once. *)
Definition exclusive (c : config) : Prop :=
  forall t1 t2 s generation index,
    holds c t1 s generation index -> holds c t2 s generation index -> t1 = t2.

(** The invariant behind exclusiveness: the element a thread holds shows the
    generation and the state of that thread's reservation, and an element has
    at most one holder. *)
Definition reservation_invariant (c : config) : Prop :=
  (forall t th s generation index,
      c.2 !! t = Some th ->
      owns th = Some (s, generation, index) ->
      d_states c.1 !! Z.to_nat index = Some (encodeElementState generation s))
  /\ (forall t1 t2 th1 th2 s1 g1 i1 s2 g2 i2,
        c.2 !! t1 = Some th1 ->
        c.2 !! t2 = Some th2 ->
        owns th1 = Some (s1, g1, i1) ->
        owns th2 = Some (s2, g2, i2) ->
        Z.to_nat i1 = Z.to_nat i2 ->
        t1 = t2).

(** What one transition of a thread does to the element states and to the
    thread's own reservation: nothing is stored and no reservation appears;
    or an element that was neither [e_WRITING] nor [e_READING] is taken; or
    the element held is given up by a store. *)
Inductive effect (m : manager) (th : thread) (m' : manager) (th' : thread) : Prop :=
| effect_keep :
    d_states m' = d_states m ->
    owns th' = owns th \/ owns th' = None ->
    effect m th m' th'
| effect_acquire s generation index w :
    owns th = None ->
    owns th' = Some (s, generation, index) ->
    d_states m !! Z.to_nat index = Some w ->
    decodeStateFromElementState w <> e_WRITING ->
    decodeStateFromElementState w <> e_READING ->
    d_states m' = <[Z.to_nat index := encodeElementState generation s]> (d_states m) ->
    effect m th m' th'
| effect_release s generation index v :
    owns th = Some (s, generation, index) ->
    owns th' = None ->
    d_states m' = <[Z.to_nat index := v]> (d_states m) ->
    effect m th m' th'.

End bcec_AtomicRingBufferIndexManager.

Import bcec_AtomicRingBufferIndexManager.

(** * Properties *)

(** ** 32-bit words *)

Lemma wrap32_small z : 0 <= z < 2 ^ 32 -> wrap32 z = z.
Proof. intros H. unfold wrap32. apply Z.mod_small, H. Qed.

Lemma wrap32_range z : 0 <= wrap32 z < 2 ^ 32.
Proof. unfold wrap32. apply Z.mod_pos_bound. lia. Qed.

Lemma wrap32_neg z : - 2 ^ 32 <= z < 0 -> wrap32 z = z + 2 ^ 32.
Proof.
  intros H. unfold wrap32.
  symmetry. apply (Z.mod_unique_pos z (2 ^ 32) (-1)); lia.
Qed.

Lemma to_int_wrap32 z : - 2 ^ 31 <= z < 2 ^ 31 -> to_int (wrap32 z) = z.
Proof.
  intros H. unfold to_int.
  destruct (Z_lt_le_dec z 0) as [Hn | Hp].
  - rewrite wrap32_neg by lia.
    destruct (Z.ltb_spec (z + 2 ^ 32) (2 ^ 31)); lia.
  - rewrite wrap32_small by lia.
    destruct (Z.ltb_spec z (2 ^ 31)); lia.
Qed.

Lemma to_int_small z : 0 <= z < 2 ^ 31 -> to_int z = z.
Proof. intros H. unfold to_int. destruct (Z.ltb_spec z (2 ^ 31)); lia. Qed.


(** ** Encoding of the elements of [d_states] *)

Lemma ElementState_value_range s : 0 <= ElementState_value s < 4.
Proof. destruct s; simpl; lia. Qed.

Lemma ElementState_of_value s : ElementState_of (ElementState_value s) = s.
Proof. by destruct s. Qed.

Lemma shifted_generation_wrap g :
  wrap32 (Z.shiftl g e_GENERATION_COUNT_SHIFT) = Z.shiftl (g mod 2 ^ 30) 2.
Proof.
  unfold wrap32, e_GENERATION_COUNT_SHIFT.
  rewrite !Z.shiftl_mul_pow2 by lia.
  change (2 ^ 32) with (2 ^ 30 * 2 ^ 2).
  rewrite Z.mul_mod_distr_r by lia. reflexivity.
Qed.

Lemma decodeState_encode g s :
  decodeStateFromElementState (encodeElementState g s) = s.
Proof.
  unfold decodeStateFromElementState, encodeElementState, e_ELEMENT_STATE_MASK.
  rewrite shifted_generation_wrap.
  change 3 with (Z.ones 2).
  rewrite Z.land_ones by lia.
  rewrite <- (ElementState_of_value s) at 2. f_equal.
  pose proof (ElementState_value_range s) as Hs.
  rewrite <- Z.land_ones by lia.
  rewrite Z.land_lor_distr_l.
  rewrite !Z.land_ones by lia.
  rewrite Z.shiftl_mul_pow2 by lia.
  rewrite Z.mod_mul by lia.
  rewrite Z.lor_0_l. apply Z.mod_small. lia.
Qed.

Lemma decodeGeneration_encode g s :
  decodeGenerationFromElementState (encodeElementState g s) = g mod 2 ^ 30.
Proof.
  unfold decodeGenerationFromElementState, encodeElementState,
    e_GENERATION_COUNT_SHIFT.
  rewrite shifted_generation_wrap.
  rewrite Z.shiftr_lor, Z.shiftr_shiftl_l by lia.
  pose proof (ElementState_value_range s) as Hs.
  replace (Z.shiftr (ElementState_value s) 2) with 0.
  - rewrite Z.lor_0_r. change (2 - 2) with 0. apply Z.shiftl_0_r.
  - rewrite Z.shiftr_div_pow2 by lia. symmetry. apply Z.div_small. lia.
Qed.


(** C9: for a generation that fits the 30 bits above the state bits,
    decoding an encoded word gives back the generation and the state. *)
Theorem encode_decode_roundtrip (generation : Z) (state : ElementState) :
  0 <= generation < 2 ^ 30 ->
  decodeGenerationFromElementState (encodeElementState generation state) = generation
  /\ decodeStateFromElementState (encodeElementState generation state) = state.
Proof.
  intros H. split.
  - rewrite decodeGeneration_encode. apply Z.mod_small, H.
  - apply decodeState_encode.
Qed.

Lemma encode_decode_roundtrip_witness :
  decodeGenerationFromElementState (encodeElementState 805306367 e_READING) = 805306367
  /\ decodeStateFromElementState (encodeElementState 805306367 e_READING) = e_READING.
Proof. apply (encode_decode_roundtrip 805306367 e_READING). lia. Defined.

(** ** numRepresentableGenerations *)

Lemma numRepresentableGenerations_range capacity :
  0 < capacity <= e_MAX_CAPACITY ->
  2 <= numRepresentableGenerations capacity <= 2 ^ 30
  /\ numRepresentableGenerations capacity * capacity <= 2 ^ 31.
Proof.
  unfold e_MAX_CAPACITY, numRepresentableGenerations,
    e_NUM_REPRESENTABLE_COMBINED_INDICES, e_DISABLED_STATE_MASK,
    e_NUM_REPRESENTABLE_ELEMENT_STATE_GENERATIONS.
  change (Z.shiftl 1 (4 * 8 - 2)) with (2 ^ 30).
  change (Z.shiftl 1 (4 * 8 - 1)) with (2 ^ 31).
  intros H.
  assert (2 <= 2 ^ 31 / capacity) by (apply Z.div_le_lower_bound; lia).
  assert (capacity * (2 ^ 31 / capacity) <= 2 ^ 31)
    by (apply Z.mul_div_le; lia).
  split; [lia|]. nia.
Qed.

(** C10: every capacity from 1 to 2^30 leaves room for at least two
    generations, so the largest generation of a manager is at least 1. *)
Theorem numRepresentableGenerations_at_least_two (capacity : Z) :
  1 <= capacity <= 2 ^ 30 ->
  2 <= numRepresentableGenerations capacity
  /\ numRepresentableGenerations capacity
     = Z.min (2 ^ 31 / capacity) (2 ^ 30)
  /\ forall m, create capacity = Some m -> 1 <= d_maxGeneration m.
Proof.
  intros H.
  assert (Hc : 0 < capacity <= e_MAX_CAPACITY)
    by (change e_MAX_CAPACITY with (2 ^ 30); lia).
  pose proof (numRepresentableGenerations_range capacity Hc) as [Hn _].
  split; [lia|]. split; [reflexivity|].
  intros m Hm. unfold create in Hm.
  destruct (_ && _); [|discriminate]. injection Hm as <-. simpl.
  rewrite wrap32_small; lia.
Qed.

Lemma numRepresentableGenerations_at_least_two_witness :
  2 <= numRepresentableGenerations (2 ^ 30)
  /\ numRepresentableGenerations (2 ^ 30) = Z.min (2 ^ 31 / 2 ^ 30) (2 ^ 30)
  /\ forall m, create (2 ^ 30) = Some m -> 1 <= d_maxGeneration m.
Proof. apply (numRepresentableGenerations_at_least_two (2 ^ 30)). lia. Defined.

(** ** circularDifference *)

Lemma wrap32_add_l a b : wrap32 (wrap32 a + b) = wrap32 (a + b).
Proof. unfold wrap32. apply Zplus_mod_idemp_l. Qed.

Lemma wrap32_sub_l a b : wrap32 (wrap32 a - b) = wrap32 (a - b).
Proof. unfold wrap32. apply Zminus_mod_idemp_l. Qed.

(** What [circularDifference] computes when its assertions hold, with the
    machine arithmetic resolved. *)
Lemma circularDifference_eq minuend subtrahend modulo :
  0 < modulo <= 2 ^ 31 ->
  0 <= minuend < modulo ->
  0 <= subtrahend < modulo ->
  circularDifference minuend subtrahend modulo =
  Some (if minuend - subtrahend >? modulo / 2 then minuend - subtrahend - modulo
        else if minuend - subtrahend <? - (modulo / 2)
             then minuend - subtrahend + modulo
             else minuend - subtrahend).
Proof.
  intros Hm Ha Hb. unfold circularDifference, INT_MAX.
  rewrite (wrap32_small (2 ^ 31 - 1 + 1)) by lia.
  assert (Hh : 0 <= modulo / 2 < 2 ^ 31).
  { split; [apply Z.div_pos; lia|].
    apply Z.div_lt_upper_bound; lia. }
  destruct (Z.leb_spec modulo (2 ^ 31 - 1 + 1)); [|lia].
  destruct (Z.ltb_spec minuend modulo); [|lia].
  destruct (Z.ltb_spec subtrahend modulo); [|lia].
  simpl.
  rewrite wrap32_sub_l, wrap32_add_l.
  rewrite (to_int_wrap32 (minuend - subtrahend)) by lia.
  rewrite (to_int_small (modulo / 2)) by lia.
  destruct (Z.gtb_spec (minuend - subtrahend) (modulo / 2)).
  - rewrite to_int_wrap32 by lia. reflexivity.
  - destruct (Z.ltb_spec (minuend - subtrahend) (- (modulo / 2))).
    + rewrite to_int_wrap32 by lia. reflexivity.
    + reflexivity.
Qed.

(** C4, as the code has it: the result is congruent to [minuend - subtrahend]
    and lies in the closed interval from [-(modulo / 2)] to [modulo / 2]; a
    difference of exactly [-(modulo / 2)] is returned unchanged, as is every
    difference that already lies in that interval. *)
Theorem circularDifference_closed_interval (minuend subtrahend modulo : Z) :
  0 < modulo <= 2 ^ 31 ->
  0 <= minuend < modulo ->
  0 <= subtrahend < modulo ->
  exists r,
    circularDifference minuend subtrahend modulo = Some r
    /\ (r - (minuend - subtrahend)) mod modulo = 0
    /\ - (modulo / 2) <= r <= modulo / 2
    /\ (minuend - subtrahend = - (modulo / 2) -> r = - (modulo / 2))
    /\ (- (modulo / 2) <= minuend - subtrahend <= modulo / 2 ->
        r = minuend - subtrahend).
Proof.
  intros Hm Ha Hb.
  rewrite circularDifference_eq by assumption.
  eexists. split; [reflexivity|].
  assert (Hh : 0 <= modulo / 2) by (apply Z.div_pos; lia).
  assert (Hd : modulo = 2 * (modulo / 2) + modulo mod 2)
    by (apply Z.div_mod; lia).
  pose proof (Z.mod_pos_bound modulo 2 ltac:(lia)) as Hr.
  destruct (Z.gtb_spec (minuend - subtrahend) (modulo / 2)).
  - split; [|lia].
    replace (minuend - subtrahend - modulo - (minuend - subtrahend))
      with (-1 * modulo) by lia.
    apply Z.mod_mul. lia.
  - destruct (Z.ltb_spec (minuend - subtrahend) (- (modulo / 2))).
    + split; [|lia].
      replace (minuend - subtrahend + modulo - (minuend - subtrahend))
        with (1 * modulo) by lia.
      apply Z.mod_mul. lia.
    + split; [|lia].
      rewrite Z.sub_diag. apply Z.mod_0_l. lia.
Qed.

Lemma circularDifference_closed_interval_witness :
  exists r,
    circularDifference 0 2 4 = Some r
    /\ (r - (0 - 2)) mod 4 = 0
    /\ - (4 / 2) <= r <= 4 / 2
    /\ (0 - 2 = - (4 / 2) -> r = - (4 / 2))
    /\ (- (4 / 2) <= 0 - 2 <= 4 / 2 -> r = 0 - 2).
Proof. apply (circularDifference_closed_interval 0 2 4); lia. Defined.

(** C4 as stated fails: with [modulo = 4] the difference of 0 and 2 is
    returned as -2, which is not above [-(modulo / 2)]. *)
Lemma circularDifference_half_open_counterexample :
  0 < 4 <= 2 ^ 31 /\ 0 <= 0 < 4 /\ 0 <= 2 < 4
  /\ circularDifference 0 2 4 = Some (-2)
  /\ ~ (- (4 / 2) < -2 <= 4 / 2).
Proof.
  split; [lia|]. split; [lia|]. split; [lia|].
  split; [reflexivity|]. vm_compute. intros [H _]. discriminate H.
Qed.

(** ** The constructor and its constants *)

Lemma create_Some capacity :
  0 < capacity <= e_MAX_CAPACITY ->
  create capacity =
  Some {| d_pushIndex := 0;
          d_popIndex := 0;
          d_capacity := capacity;
          d_maxGeneration := numRepresentableGenerations capacity - 1;
          d_maxCombinedIndex := numRepresentableGenerations capacity * capacity - 1;
          d_states := replicate (Z.to_nat capacity) 0 |}.
Proof.
  intros H. unfold create.
  destruct (Z.ltb_spec 0 capacity); [|lia].
  destruct (Z.leb_spec capacity e_MAX_CAPACITY); [|lia].
  simpl.
  pose proof (numRepresentableGenerations_range capacity H) as [Hn Hp].
  rewrite (wrap32_small (_ * _)) by nia.
  rewrite !wrap32_small by nia. reflexivity.
Qed.

Lemma create_constants_ok capacity m : create capacity = Some m -> constants_ok m.
Proof.
  intros Hm.
  assert (H : 0 < capacity <= e_MAX_CAPACITY).
  { unfold create in Hm.
    destruct (Z.ltb_spec 0 capacity); [|discriminate].
    destruct (Z.leb_spec capacity e_MAX_CAPACITY); [|discriminate]. lia. }
  rewrite create_Some in Hm by assumption.
  injection Hm as <-. repeat split; simpl; lia.
Qed.

Lemma constants_ok_bounds m :
  constants_ok m ->
  0 < d_capacity m <= 2 ^ 30
  /\ 1 <= d_maxGeneration m < 2 ^ 30
  /\ d_maxCombinedIndex m = (d_maxGeneration m + 1) * d_capacity m - 1
  /\ 2 * d_capacity m - 1 <= d_maxCombinedIndex m < 2 ^ 31.
Proof.
  intros (Hc & Hg & Hi).
  pose proof (numRepresentableGenerations_range _ Hc) as [Hn Hp].
  change e_MAX_CAPACITY with (2 ^ 30) in Hc.
  repeat split; try lia; nia.
Qed.

(** C5, as the code has it: the constructor accepts every valid capacity and
    sets the largest combined index to the last index of the largest
    generation, [(maxGeneration + 1) * capacity - 1], where [maxGeneration]
    is [numRepresentableGenerations(capacity) - 1]. *)
Theorem maxCombinedIndex_last_of_maxGeneration (capacity : Z) :
  0 < capacity <= e_MAX_CAPACITY ->
  exists m,
    create capacity = Some m
    /\ d_maxGeneration m = numRepresentableGenerations capacity - 1
    /\ d_maxCombinedIndex m = (d_maxGeneration m + 1) * capacity - 1.
Proof.
  intros H. eexists. split; [apply create_Some, H|].
  simpl. split; [reflexivity|]. ring.
Qed.

Lemma maxCombinedIndex_last_of_maxGeneration_witness :
  exists m,
    create 4 = Some m
    /\ d_maxGeneration m = numRepresentableGenerations 4 - 1
    /\ d_maxCombinedIndex m = (d_maxGeneration m + 1) * 4 - 1.
Proof.
  apply (maxCombinedIndex_last_of_maxGeneration 4).
  change e_MAX_CAPACITY with (2 ^ 30). lia.
Defined.

(** C5 as stated fails: for capacity 4 the largest generation is 2^29 - 1 and
    the largest combined index is 2^31 - 1, not [(2^29 - 1) * 4]. *)
Lemma maxCombinedIndex_counterexample :
  0 < 4 <= e_MAX_CAPACITY
  /\ exists m,
       create 4 = Some m
       /\ d_maxGeneration m = numRepresentableGenerations 4 - 1
       /\ d_maxCombinedIndex m <> d_maxGeneration m * 4.
Proof.
  split; [change e_MAX_CAPACITY with (2 ^ 30); lia|].
  eexists. split; [reflexivity|]. split; [reflexivity|].
  vm_compute. discriminate.
Qed.

(** ** length *)

Lemma discardDisabledFlag_mod w : discardDisabledFlag w = w mod 2 ^ 31.
Proof.
  unfold discardDisabledFlag.
  change (wrap32 (Z.lnot e_DISABLED_STATE_MASK)) with (Z.ones 31).
  apply Z.land_ones. lia.
Qed.

Lemma discardDisabledFlag_range w : 0 <= discardDisabledFlag w < 2 ^ 31.
Proof. rewrite discardDisabledFlag_mod. apply Z.mod_pos_bound. lia. Qed.

Ltac case_compare :=
  repeat match goal with
    | |- context [?a <? ?b] => destruct (Z.ltb_spec a b)
    | |- context [?a <=? ?b] => destruct (Z.leb_spec a b)
    | |- context [?a >? ?b] => destruct (Z.gtb_spec a b)
    | |- context [?a >=? ?b] => destruct (Z.geb_spec a b)
    | |- context [?a =? ?b] => destruct (Z.eqb_spec a b)
    end.

(** [lengthFrom] with the machine arithmetic resolved: [d] is the plain
    difference of the two combined indices, [M] the number of combined
    indices. *)
Lemma lengthFrom_eq m loadedPushIndex loadedPopIndex :
  constants_ok m ->
  discardDisabledFlag loadedPushIndex <= d_maxCombinedIndex m ->
  0 <= loadedPopIndex <= d_maxCombinedIndex m ->
  let d := discardDisabledFlag loadedPushIndex - loadedPopIndex in
  let M := d_maxCombinedIndex m + 1 in
  lengthFrom m loadedPushIndex loadedPopIndex =
  if 0 <=? d then
    if d <=? d_capacity m then Some d
    else if M / 2 <? d then Some 0 else None
  else if d <? - (d_maxCombinedIndex m / 2) then
    if d <? - (M / 2) then Some (Z.min (d + M) (d_capacity m)) else None
  else Some 0.
Proof.
  intros Hok Hpush Hpop d M.
  destruct (constants_ok_bounds m Hok) as (Hc & Hg & _ & Hi).
  pose proof (discardDisabledFlag_range loadedPushIndex) as HP.
  unfold lengthFrom. fold d.
  rewrite (wrap32_small (d_maxCombinedIndex m + 1)) by lia. fold M.
  rewrite (to_int_wrap32 d) by (unfold d; lia).
  rewrite (to_int_small (d_maxCombinedIndex m / 2))
    by (split; [apply Z.div_pos|apply Z.div_lt_upper_bound]; lia).
  rewrite wrap32_add_l.
  rewrite circularDifference_eq by (unfold M, d in *; lia).
  fold d.
  assert (HM : 2 * (M / 2) <= M <= 2 * (M / 2) + 1).
  { pose proof (Z.div_mod M 2 ltac:(lia)).
    pose proof (Z.mod_pos_bound M 2 ltac:(lia)). lia. }
  destruct (Z.geb_spec d 0); destruct (Z.leb_spec 0 d); try lia.
  - rewrite (wrap32_small d) by (unfold d; lia).
    destruct (Z.gtb_spec d (d_capacity m)); destruct (Z.leb_spec d (d_capacity m));
      try lia; [|reflexivity].
    destruct (Z.gtb_spec d (M / 2)); destruct (Z.ltb_spec (M / 2) d); try lia.
    + destruct (Z.gtb_spec 0 (d - M)); [reflexivity|unfold d, M in *; lia].
    + destruct (Z.ltb_spec d (- (M / 2))); [lia|].
      destruct (Z.gtb_spec 0 d); [lia|reflexivity].
  - destruct (Z.ltb_spec d (- (d_maxCombinedIndex m / 2))); [|reflexivity].
    destruct (Z.gtb_spec d (M / 2)); [lia|].
    destruct (Z.ltb_spec d (- (M / 2))).
    + destruct (Z.ltb_spec 0 (d + M)); [|unfold d, M in *; lia].
      rewrite to_int_wrap32 by (unfold d, M in *; lia).
      rewrite wrap32_small by (unfold d, M in *; lia). reflexivity.
    + destruct (Z.ltb_spec 0 d); [lia|reflexivity].
Qed.

(** C3, as the code has it: at a pair of loaded cursor words whose combined
    indices are at most [d_maxCombinedIndex], [length] stops at a failed
    assertion when the push index is ahead of the pop index by more than the
    capacity and at most half the number of combined indices, or behind it by
    exactly that half (an even number of combined indices); at every other
    such pair it returns a value from 0 to the capacity. *)
Theorem length_in_range_unless_assertion_fails
    (m : manager) (loadedPushIndex loadedPopIndex : Z) :
  constants_ok m ->
  discardDisabledFlag loadedPushIndex <= d_maxCombinedIndex m ->
  0 <= loadedPopIndex <= d_maxCombinedIndex m ->
  if length_assertion_fails m loadedPushIndex loadedPopIndex
  then lengthFrom m loadedPushIndex loadedPopIndex = None
  else exists n,
         lengthFrom m loadedPushIndex loadedPopIndex = Some n
         /\ 0 <= n <= d_capacity m.
Proof.
  intros Hok Hpush Hpop.
  rewrite lengthFrom_eq by assumption.
  destruct (constants_ok_bounds m Hok) as (Hc & Hg & _ & Hi).
  pose proof (discardDisabledFlag_range loadedPushIndex) as HP.
  unfold length_assertion_fails.
  set (d := discardDisabledFlag loadedPushIndex - loadedPopIndex).
  set (M := d_maxCombinedIndex m + 1).
  assert (HM : 2 * (M / 2) <= M <= 2 * (M / 2) + 1).
  { pose proof (Z.div_mod M 2 ltac:(lia)).
    pose proof (Z.mod_pos_bound M 2 ltac:(lia)). lia. }
  assert (HI : 2 * (d_maxCombinedIndex m / 2) <= d_maxCombinedIndex m
               <= 2 * (d_maxCombinedIndex m / 2) + 1).
  { pose proof (Z.div_mod (d_maxCombinedIndex m) 2 ltac:(lia)).
    pose proof (Z.mod_pos_bound (d_maxCombinedIndex m) 2 ltac:(lia)). lia. }
  case_compare; simpl; try reflexivity; try lia;
    try (eexists; split; [reflexivity|unfold d, M in *; lia]).
Qed.

Lemma length_in_range_unless_assertion_fails_witness :
  exists m,
    create 4 = Some m
    /\ exists n, lengthFrom m 3 1 = Some n /\ 0 <= n <= d_capacity m.
Proof.
  eexists. split; [vm_compute; reflexivity|].
  match goal with
  | |- context [lengthFrom ?m 3 1] =>
      refine (length_in_range_unless_assertion_fails m 3 1 _ _ _)
  end.
  - apply (create_constants_ok 4). reflexivity.
  - vm_compute. discriminate.
  - vm_compute. split; discriminate.
Defined.

(** C3 as stated fails: with capacity 4, a push index of 10 and a pop index
    of 0 are both below [d_maxCombinedIndex], and [length] stops at its first
    assertion instead of returning. *)
Lemma length_counterexample :
  exists m,
    create 4 = Some m
    /\ discardDisabledFlag 10 <= d_maxCombinedIndex m
    /\ 0 <= 0 <= d_maxCombinedIndex m
    /\ lengthFrom m 10 0 = None
    /\ length (set_pushIndex m 10) = None.
Proof.
  eexists. split; [reflexivity|].
  split; [vm_compute; discriminate|].
  split; [vm_compute; split; discriminate|].
  split; reflexivity.
Qed.

(** In the steady state, where the push index is ahead of the pop index by at
    most the capacity, [length] returns their difference. *)
Lemma length_steady_state m :
  constants_ok m ->
  discardDisabledFlag (d_pushIndex m) <= d_maxCombinedIndex m ->
  0 <= d_popIndex m <= discardDisabledFlag (d_pushIndex m) ->
  discardDisabledFlag (d_pushIndex m) - d_popIndex m <= d_capacity m ->
  length m = Some (discardDisabledFlag (d_pushIndex m) - d_popIndex m).
Proof.
  intros Hok Hpush Hpop Hd. unfold length.
  rewrite lengthFrom_eq by (try assumption; lia).
  case_compare; try reflexivity; lia.
Qed.

(** ** Running a call *)

Section RunFacts.
Context {pc R : Type}.
Variable step : manager -> pc -> manager * pc.
Variable final : pc -> option (outcome R).

Lemma run_final fuel m p o :
  final p = Some o -> run step final fuel m p = Some (o, m).
Proof. intros H. destruct fuel; simpl; rewrite H; reflexivity. Qed.

Lemma run_step fuel m p :
  final p = None ->
  run step final (S fuel) m p = run step final fuel (step m p).1 (step m p).2.
Proof. intros H. simpl. rewrite H. destruct (step m p); reflexivity. Qed.

(** A call that completes within some fuel completes with the same result
    within any larger fuel. *)
Lemma run_more_fuel fuel :
  forall m p r extra,
    run step final fuel m p = Some r ->
    run step final (fuel + extra) m p = Some r.
Proof.
  induction fuel as [|fuel IH]; intros m p r extra H.
  - simpl in H. destruct (final p) eqn:Hf; [|discriminate].
    injection H as <-. apply run_final, Hf.
  - simpl in *. destruct (final p); [exact H|].
    destruct (step m p) as [m' p']. apply IH, H.
Qed.
End RunFacts.

Lemma reserve_then_commit_more_fuel reserve commit :
  (forall fuel extra m r,
      reserve fuel m = Some r -> reserve (fuel + extra)%nat m = Some r) ->
  (forall fuel extra m g i r,
      commit fuel m g i = Some r -> commit (fuel + extra)%nat m g i = Some r) ->
  forall fuel extra m r,
    reserve_then_commit reserve commit fuel m = Some r ->
    reserve_then_commit reserve commit (fuel + extra) m = Some r.
Proof.
  intros Hr Hc fuel extra m r. unfold reserve_then_commit.
  destruct (reserve fuel m) as [[o m1]|] eqn:E; [|discriminate].
  rewrite (Hr _ extra _ _ E).
  destruct o as [[g i|status]|]; try exact id.
  destruct (commit fuel m1 g i) as [[o2 m2]|] eqn:E2; [|discriminate].
  rewrite (Hc _ extra _ _ _ _ E2). exact id.
Qed.

Lemma pushOne_more_fuel fuel extra m r :
  pushOne fuel m = Some r -> pushOne (fuel + extra) m = Some r.
Proof.
  apply reserve_then_commit_more_fuel.
  - intros. by apply run_more_fuel.
  - intros. by apply run_more_fuel.
Qed.

Lemma popOne_more_fuel fuel extra m r :
  popOne fuel m = Some r -> popOne (fuel + extra) m = Some r.
Proof.
  apply reserve_then_commit_more_fuel.
  - intros. by apply run_more_fuel.
  - intros. by apply run_more_fuel.
Qed.

(** ** reservePushIndex on a disabled queue *)

(** C7: when the disabled bit of the push cursor is set, [reservePushIndex]
    returns [e_DISABLED_QUEUE] after loading the cursor, and the manager
    (element states and both cursors) is as it was; the same holds at every
    later turn of the loop that finds the bit set in the word it loaded. *)
Theorem reservePushIndex_disabled (m : manager) (fuel : nat) :
  isDisabledFlagSet (d_pushIndex m) = true ->
  reservePushIndex (S (S fuel)) m = Some (Returned (Refused e_DISABLED_QUEUE), m)
  /\ forall loadedPushIndex,
       isDisabledFlagSet loadedPushIndex = true ->
       reservePushIndex_step m (PushLoop loadedPushIndex)
       = (m, PushRet (Refused e_DISABLED_QUEUE)).
Proof.
  intros H.
  assert (Hloop : forall w,
             isDisabledFlagSet w = true ->
             reservePushIndex_step m (PushLoop w)
             = (m, PushRet (Refused e_DISABLED_QUEUE))).
  { intros w Hw. simpl. rewrite Hw. reflexivity. }
  split; [|exact Hloop].
  unfold reservePushIndex.
  rewrite run_step by reflexivity.
  change (reservePushIndex_step m PushLoad) with (m, PushLoop (d_pushIndex m)).
  cbn [fst snd].
  rewrite run_step by reflexivity.
  rewrite (Hloop _ H). cbn [fst snd].
  apply run_final. reflexivity.
Qed.

Lemma reservePushIndex_disabled_witness :
  exists m0 m1,
    create 4 = Some m0
    /\ disable 2 m0 = Some (Returned tt, m1)
    /\ reservePushIndex 2 m1 = Some (Returned (Refused e_DISABLED_QUEUE), m1).
Proof.
  eexists. eexists. do 2 (split; [vm_compute; reflexivity|]).
  match goal with
  | |- reservePushIndex 2 ?m = _ => apply (reservePushIndex_disabled m 0)
  end.
  vm_compute. reflexivity.
Defined.

(** ** commitPopIndex *)

(** A commit by the holder of the reservation: the three transitions pass
    the assertions and perform the store. *)
Lemma commit_run held stored m generation index fuel :
  d_maxGeneration m < 2 ^ 30 ->
  0 <= generation <= d_maxGeneration m ->
  index < d_capacity m ->
  d_states m !! Z.to_nat index = Some (encodeElementState generation held) ->
  run (commit_step held stored) commit_final (S (S (S fuel))) m
      (CommitEnter generation index)
  = Some (Returned tt,
          set_states m (<[Z.to_nat index := stored m generation]> (d_states m))).
Proof.
  intros Hmax Hg Hi Hs.
  assert (E1 : commit_step held stored m (CommitEnter generation index)
               = (m, CommitCheck generation index)).
  { unfold commit_step, load_state. rewrite Hs, decodeState_encode.
    destruct (Z.leb_spec generation (d_maxGeneration m)); [|lia].
    destruct (Z.ltb_spec index (d_capacity m)); [|lia].
    simpl. destruct (decide (held = held)); [reflexivity|contradiction]. }
  assert (E2 : commit_step held stored m (CommitCheck generation index)
               = (m, CommitStore generation index)).
  { unfold commit_step, load_state.
    rewrite Hs, decodeGeneration_encode, (Z.mod_small generation) by lia.
    rewrite Z.eqb_refl. reflexivity. }
  assert (E3 : commit_step held stored m (CommitStore generation index)
               = (set_states m (<[Z.to_nat index := stored m generation]> (d_states m)),
                  CommitRet)).
  { unfold commit_step, store_state. rewrite Hs. reflexivity. }
  rewrite run_step, E1 by reflexivity. cbn [fst snd].
  rewrite run_step, E2 by reflexivity. cbn [fst snd].
  rewrite run_step, E3 by reflexivity. cbn [fst snd].
  apply run_final. reflexivity.
Qed.

(** C8: when the element at [index] holds [generation] in state [e_READING],
    [commitPopIndex] returns having stored [nextGeneration(generation)] in
    state [e_EMPTY] into that element, and nothing else has changed. *)
Theorem commitPopIndex_stores_next_generation
    (m : manager) (generation index : Z) (fuel : nat) :
  constants_ok m ->
  0 <= generation <= d_maxGeneration m ->
  0 <= index < d_capacity m ->
  d_states m !! Z.to_nat index = Some (encodeElementState generation e_READING) ->
  commitPopIndex (S (S (S fuel))) m generation index =
  Some (Returned tt,
        set_states m
          (<[Z.to_nat index :=
               encodeElementState (nextGeneration m generation) e_EMPTY]>
             (d_states m)))
  /\ nextGeneration m generation = (generation + 1) mod (d_maxGeneration m + 1).
Proof.
  intros Hok Hg Hi Hs. split; [|reflexivity].
  destruct (constants_ok_bounds m Hok) as (_ & Hmax & _).
  unfold commitPopIndex, commitPopIndex_step.
  rewrite (commit_run e_READING) by (try assumption; lia).
  reflexivity.
Qed.

Ltac by_evaluation :=
  vm_compute; repeat split; try reflexivity; try discriminate;
  try (intro; discriminate).

Lemma commitPopIndex_stores_next_generation_witness :
  exists m0 m1 m2,
    create 4 = Some m0
    /\ pushOne 3 m0 = Some (Returned (Reserved 0 0), m1)
    /\ reservePopIndex 3 m1 = Some (Returned (Reserved 0 0), m2)
    /\ d_states m2 !! Z.to_nat 0 = Some (encodeElementState 0 e_READING)
    /\ commitPopIndex 3 m2 0 0 =
       Some (Returned tt,
             set_states m2
               (<[Z.to_nat 0 := encodeElementState (nextGeneration m2 0) e_EMPTY]>
                  (d_states m2)))
    /\ nextGeneration m2 0 = (0 + 1) mod (d_maxGeneration m2 + 1).
Proof.
  eexists. eexists. eexists.
  do 4 (split; [vm_compute; reflexivity|]).
  match goal with
  | |- commitPopIndex 3 ?m 0 0 = _ /\ _ =>
      apply (commitPopIndex_stores_next_generation m 0 0 0)
  end; by_evaluation.
Defined.

(** ** The scenario with capacity 4 *)

(** C2: on a fresh manager of capacity 4, used by one thread, four pushes
    reserve and commit indices 0, 1, 2, 3 of generation 0; a fifth
    [reservePushIndex] returns [e_QUEUE_FULL] and changes nothing; one pop
    reserves and commits generation 0, index 0; the next [reservePushIndex]
    reserves generation 1, index 0.  Every call completes within three
    transitions, whatever fuel is given beyond that. *)
Theorem capacity_four_scenario (extra : nat) :
  let fuel := (3 + extra)%nat in
  exists m0 m1 m2 m3 m4 m5 m6,
    create 4 = Some m0
    /\ pushOne fuel m0 = Some (Returned (Reserved 0 0), m1)
    /\ pushOne fuel m1 = Some (Returned (Reserved 0 1), m2)
    /\ pushOne fuel m2 = Some (Returned (Reserved 0 2), m3)
    /\ pushOne fuel m3 = Some (Returned (Reserved 0 3), m4)
    /\ reservePushIndex fuel m4 = Some (Returned (Refused e_QUEUE_FULL), m4)
    /\ popOne fuel m4 = Some (Returned (Reserved 0 0), m5)
    /\ d_states m5 !! 0%nat = Some (encodeElementState 1 e_EMPTY)
    /\ reservePushIndex fuel m5 = Some (Returned (Reserved 1 0), m6).
Proof.
  intros fuel. unfold fuel.
  do 7 eexists.
  split; [reflexivity|].
  split; [apply pushOne_more_fuel; vm_compute; reflexivity|].
  split; [apply pushOne_more_fuel; vm_compute; reflexivity|].
  split; [apply pushOne_more_fuel; vm_compute; reflexivity|].
  split; [apply pushOne_more_fuel; vm_compute; reflexivity|].
  split; [apply (run_more_fuel _ _ 3); vm_compute; reflexivity|].
  split; [apply popOne_more_fuel; vm_compute; reflexivity|].
  split; [vm_compute; reflexivity|].
  apply (run_more_fuel _ _ 3); vm_compute; reflexivity.
Qed.

(** ** clearPopIndex *)

(** The difference [clearPopIndex] tests is never negative: it starts from a
    32-bit unsigned subtraction. *)
Lemma clearPopIndex_difference_nonneg m endGeneration endIndex loaded :
  0 <= clearPopIndex_difference m endGeneration endIndex loaded.
Proof.
  unfold clearPopIndex_difference.
  pose proof (wrap32_range
    (wrap32 (wrap32 (endGeneration * d_capacity m) + endIndex) - loaded)).
  pose proof (wrap32_range (d_maxCombinedIndex m + 1)).
  destruct (_ && _); lia.
Qed.

(** With the end boundary at the pop cursor, outside the wrap-around special
    case, the call returns [e_FAILURE] and the manager is unchanged. *)
Lemma clearPopIndex_at_cursor m endGeneration endIndex fuel :
  constants_ok m ->
  0 <= endGeneration <= d_maxGeneration m ->
  0 <= endIndex < d_capacity m ->
  endGeneration * d_capacity m + endIndex = d_popIndex m ->
  d_capacity m <= d_popIndex m
  \/ d_popIndex m < d_maxCombinedIndex m - d_capacity m ->
  clearPopIndex (S (S fuel)) m endGeneration endIndex
  = Some (Returned (Refused e_FAILURE), m).
Proof.
  intros Hok Hg Hi Hend Hcase.
  destruct (constants_ok_bounds m Hok) as (Hc & Hmax & Hci & Hb).
  assert (Hpop : 0 <= d_popIndex m <= d_maxCombinedIndex m) by nia.
  assert (E1 : clearPopIndex_step endGeneration endIndex m ClearLoad
               = (m, ClearLoop (d_popIndex m))).
  { unfold clearPopIndex_step.
    destruct (Z.leb_spec endGeneration (d_maxGeneration m)); [|lia].
    destruct (Z.ltb_spec endIndex (d_capacity m)); [|lia]. reflexivity. }
  assert (E2 : clearPopIndex_difference m endGeneration endIndex (d_popIndex m) = 0).
  { unfold clearPopIndex_difference.
    rewrite wrap32_add_l, Hend.
    rewrite (wrap32_small (d_popIndex m)) by lia.
    rewrite Z.sub_diag.
    rewrite (wrap32_small (d_maxCombinedIndex m - d_capacity m)) by lia.
    change (wrap32 0) with 0.
    destruct (Z.leb_spec (d_maxCombinedIndex m - d_capacity m) (d_popIndex m));
      destruct (Z.ltb_spec (d_popIndex m) (d_capacity m)); simpl; lia. }
  unfold clearPopIndex.
  rewrite run_step, E1 by reflexivity. cbn [fst snd].
  assert (E3 : clearPopIndex_step endGeneration endIndex m (ClearLoop (d_popIndex m))
               = (m, ClearRet (Refused e_FAILURE))).
  { unfold clearPopIndex_step. rewrite E2. reflexivity. }
  rewrite run_step, E3 by reflexivity. cbn [fst snd].
  apply run_final. reflexivity.
Qed.

(** In the special case the test lets an end boundary equal to the pop cursor
    through: with the largest capacity, a cursor and a boundary both at
    combined index 2^30 - 1 give a difference of 2^31. *)
Lemma clearPopIndex_difference_special_at_cursor pushIndex states :
  clearPopIndex_difference
    (Manager pushIndex (2 ^ 30 - 1) (2 ^ 30) 1 (2 ^ 31 - 1) states)
    0 (2 ^ 30 - 1) (2 ^ 30 - 1)
  = 2 ^ 31.
Proof. reflexivity. Qed.

(** C6 at a boundary behind the cursor.  Two elements are pushed and one is
    popped, which leaves the pop cursor at combined index 1.  The boundary
    (generation 0, index 0) is then one behind the cursor, outside the special
    case: the described signed distance is -1.  The source computes
    2^32 - 1 instead, and the call disposes of the element at index 1, moves
    the pop cursor to 2 and returns success. *)
Theorem clearPopIndex_behind_cursor_disposes :
  exists m0 m1 m2 m3 m4,
    create 4 = Some m0
    /\ pushOne 3 m0 = Some (Returned (Reserved 0 0), m1)
    /\ pushOne 3 m1 = Some (Returned (Reserved 0 1), m2)
    /\ popOne 3 m2 = Some (Returned (Reserved 0 0), m3)
    /\ d_popIndex m3 = 1
    /\ described_signed_distance m3 0 0 = -1
    /\ clearPopIndex_difference m3 0 0 (d_popIndex m3) = 2 ^ 32 - 1
    /\ clearPopIndex 4 m3 0 0 = Some (Returned (Reserved 0 1), m4)
    /\ d_popIndex m4 = 2
    /\ d_states m3 !! 1%nat = Some (encodeElementState 0 e_FULL)
    /\ d_states m4 !! 1%nat = Some (encodeElementState 1 e_EMPTY).
Proof.
  do 5 eexists.
  split; [reflexivity|].
  repeat (split; [vm_compute; reflexivity|]).
  vm_compute; reflexivity.
Qed.

(** ** Exclusive ownership of reservations *)

Lemma owns_state th s g i :
  owns th = Some (s, g, i) -> s = e_WRITING \/ s = e_READING.
Proof.
  destruct th as [|p| | p|p| | p| ? ? p|p|p|]; simpl;
    try destruct p as [| | | | | r |]; try destruct p; try destruct r;
    intros H; inversion H; auto.
Qed.

Lemma testAndSwap_state_spec m index compareValue swapValue was m' :
  testAndSwap_state m index compareValue swapValue = Some (was, m') ->
  d_states m !! Z.to_nat index = Some was
  /\ (if was =? compareValue
      then d_states m' = <[Z.to_nat index := swapValue]> (d_states m)
      else m' = m).
Proof.
  unfold testAndSwap_state. intros H.
  destruct (d_states m !! Z.to_nat index) as [w|]; [|discriminate].
  injection H as <- <-. split; [reflexivity|].
  destruct (w =? compareValue); reflexivity.
Qed.

Lemma testAndSwap_pushIndex_states m c s :
  d_states (testAndSwap_pushIndex m c s).2 = d_states m.
Proof. unfold testAndSwap_pushIndex. simpl. by destruct (_ =? _). Qed.

Lemma testAndSwap_popIndex_states m c s :
  d_states (testAndSwap_popIndex m c s).2 = d_states m.
Proof. unfold testAndSwap_popIndex. simpl. by destruct (_ =? _). Qed.

Lemma reservePushIndex_step_effect m p :
  push_final p = None ->
  effect m (T_reservePush p)
         (reservePushIndex_step m p).1 (T_reservePush (reservePushIndex_step m p).2).
Proof.
  intros Hp. destruct p as [|w| |ci|ci g i|r|]; try discriminate; simpl.
  - apply effect_keep; auto.
  - destruct (isDisabledFlagSet w); [apply effect_keep; auto|].
    set (ci := discardDisabledFlag w).
    destruct (testAndSwap_state _ _ _ _) as [[was m']|] eqn:E;
      [|apply effect_keep; auto].
    apply testAndSwap_state_spec in E as [Hw Hm'].
    rewrite (Z.eqb_sym was) in Hm'.
    destruct (_ =? was) eqn:Ec.
    + apply Z.eqb_eq in Ec. subst was.
      eapply effect_acquire; eauto; simpl; rewrite decodeState_encode; discriminate.
    + subst m'.
      destruct (_ || _).
      * destruct (circularDifference _ _ _) as [[|[]|]|];
          try (apply effect_keep; by auto).
        destruct (decodeStateFromElementState was); apply effect_keep; auto.
      * apply effect_keep; auto.
  - apply effect_keep; auto.
  - apply effect_keep; [|by auto].
    apply (testAndSwap_pushIndex_states m ci (nextCombinedIndex m ci)).
  - apply effect_keep; [|by auto].
    apply (testAndSwap_pushIndex_states m ci (nextCombinedIndex m ci)).
Qed.

Lemma reservePopIndex_step_effect m p :
  pop_final p = None ->
  effect m (T_reservePop p)
         (reservePopIndex_step m p).1 (T_reservePop (reservePopIndex_step m p).2).
Proof.
  intros Hp. destruct p as [|w| |ci|ci g i|r|]; try discriminate; simpl.
  - apply effect_keep; auto.
  - destruct (testAndSwap_state _ _ _ _) as [[was m']|] eqn:E;
      [|apply effect_keep; auto].
    apply testAndSwap_state_spec in E as [Hw Hm'].
    rewrite (Z.eqb_sym was) in Hm'.
    destruct (_ =? was) eqn:Ec.
    + apply Z.eqb_eq in Ec. subst was.
      eapply effect_acquire; eauto; simpl; rewrite decodeState_encode; discriminate.
    + subst m'.
      destruct (negb _); [apply effect_keep; auto|].
      destruct (decodeStateFromElementState was); apply effect_keep; auto.
  - apply effect_keep; auto.
  - apply effect_keep; [|by auto].
    apply (testAndSwap_popIndex_states m ci (nextCombinedIndex m ci)).
  - apply effect_keep; [|by auto].
    apply (testAndSwap_popIndex_states m ci (nextCombinedIndex m ci)).
Qed.

Lemma clearPopIndex_step_effect endGeneration endIndex m p :
  clear_final p = None ->
  effect m (T_clearPop endGeneration endIndex p)
         (clearPopIndex_step endGeneration endIndex m p).1
         (T_clearPop endGeneration endIndex
                     (clearPopIndex_step endGeneration endIndex m p).2).
Proof.
  intros Hp. destruct p as [|w| |ci|ci g i|g i|r|]; try discriminate; simpl.
  - destruct (negb _); [apply effect_keep; auto|].
    destruct (negb _); apply effect_keep; auto.
  - destruct (_ <=? 0); [apply effect_keep; auto|].
    destruct (testAndSwap_state _ _ _ _) as [[was m']|] eqn:E;
      [|apply effect_keep; auto].
    apply testAndSwap_state_spec in E as [Hw Hm'].
    rewrite (Z.eqb_sym was) in Hm'.
    destruct (_ =? was) eqn:Ec.
    + apply Z.eqb_eq in Ec. subst was.
      eapply effect_acquire; eauto; simpl; rewrite decodeState_encode; discriminate.
    + subst m'.
      destruct (decodeStateFromElementState was); apply effect_keep; auto.
  - apply effect_keep; auto.
  - apply effect_keep; [|by auto].
    apply (testAndSwap_popIndex_states m ci (nextCombinedIndex m ci)).
  - apply effect_keep; [|by auto].
    apply (testAndSwap_popIndex_states m ci (nextCombinedIndex m ci)).
  - unfold store_state.
    destruct (d_states m !! Z.to_nat i); [|apply effect_keep; auto].
    eapply effect_release; eauto; reflexivity.
Qed.

(** The two commits differ in the state they expect and the word they store;
    [wrap] is the thread state around the control point. *)
Lemma commit_step_effect held stored (wrap : commit_pc -> thread) m p :
  (forall g i, owns (wrap (CommitEnter g i)) = Some (held, g, i)) ->
  (forall g i, owns (wrap (CommitCheck g i)) = Some (held, g, i)) ->
  (forall g i, owns (wrap (CommitStore g i)) = Some (held, g, i)) ->
  owns (wrap CommitRet) = None ->
  owns (wrap CommitAbort) = None ->
  commit_final p = None ->
  effect m (wrap p)
         (commit_step held stored m p).1 (wrap (commit_step held stored m p).2).
Proof.
  intros He Hc Hs Hr Ha Hp.
  destruct p as [g i|g i|g i| |]; try discriminate; simpl.
  - destruct (negb _); [apply effect_keep; auto|].
    destruct (negb _); [apply effect_keep; auto|].
    destruct (load_state m i); [|apply effect_keep; auto].
    destruct (decide _); cbn [fst snd]; apply effect_keep; auto.
    left. by rewrite He, Hc.
  - destruct (load_state m i); [|apply effect_keep; auto].
    destruct (_ =? _); cbn [fst snd]; apply effect_keep; auto.
    left. by rewrite Hc, Hs.
  - unfold store_state.
    destruct (d_states m !! Z.to_nat i); [|apply effect_keep; auto].
    eapply effect_release; eauto; reflexivity.
Qed.

Lemma disable_step_effect m p :
  effect m (T_disable p) (disable_step m p).1 (T_disable (disable_step m p).2).
Proof.
  destruct p as [|w|]; simpl.
  - destruct (isDisabledFlagSet _); apply effect_keep; auto.
  - unfold testAndSwap_pushIndex.
    destruct (d_pushIndex m =? w); destruct (w =? d_pushIndex m);
      apply effect_keep; auto.
  - apply effect_keep; auto.
Qed.

Lemma enable_step_effect m p :
  effect m (T_enable p) (enable_step m p).1 (T_enable (enable_step m p).2).
Proof.
  destruct p as [|w|]; simpl.
  - destruct (negb _); apply effect_keep; auto.
  - unfold testAndSwap_pushIndex.
    destruct (d_pushIndex m =? w); destruct (w =? d_pushIndex m);
      apply effect_keep; auto.
  - apply effect_keep; auto.
Qed.

Lemma thread_step_effect m th m' th' :
  thread_step m th m' th' -> effect m th m' th'.
Proof.
  intros H. destruct H;
    try (apply effect_keep; by auto).
  - by apply reservePushIndex_step_effect.
  - by apply (commit_step_effect e_WRITING _ T_commitPush).
  - by apply reservePopIndex_step_effect.
  - by apply (commit_step_effect e_READING _ T_commitPop).
  - by apply clearPopIndex_step_effect.
  - apply disable_step_effect.
  - apply enable_step_effect.
Qed.

Lemma reservation_invariant_initial capacity N c :
  initial capacity N = Some c -> reservation_invariant c.
Proof.
  unfold initial. destruct (create capacity) as [m|]; [|discriminate].
  intros [= <-]. split; simpl.
  - intros t th s g i Ht Ho.
    apply lookup_replicate in Ht as [-> _]. discriminate.
  - intros t1 t2 th1 th2 s1 g1 i1 s2 g2 i2 Ht1 _ Ho1.
    apply lookup_replicate in Ht1 as [-> _]. discriminate.
Qed.

Section Preservation.
Variables (m m' : manager) (ts : list thread) (t : nat) (th th' : thread).
Hypothesis Hinv : reservation_invariant (m, ts).
Hypothesis Ht : ts !! t = Some th.

Let new_pool := <[t := th']> ts.

Lemma new_pool_lookup t0 th0 :
  new_pool !! t0 = Some th0 ->
  (t0 = t /\ th0 = th') \/ (t0 <> t /\ ts !! t0 = Some th0).
Proof.
  unfold new_pool. intros H.
  apply list_lookup_insert_Some in H as [(-> & -> & _) | [Hne H]]; auto.
Qed.

Lemma effect_keep_preserves :
  d_states m' = d_states m ->
  owns th' = owns th \/ owns th' = None ->
  reservation_invariant (m', new_pool).
Proof.
  intros Hst Hown. destruct Hinv as [Hslot Hone].
  assert (Hold : forall t0 th0 s g i,
             new_pool !! t0 = Some th0 ->
             owns th0 = Some (s, g, i) ->
             exists th1, ts !! t0 = Some th1 /\ owns th1 = Some (s, g, i)).
  { intros t0 th0 s g i H0 Ho.
    apply new_pool_lookup in H0 as [[-> ->] | [_ H0]]; [|eauto].
    exists th. split; [assumption|].
    destruct Hown as [<- | Hn]; [assumption|congruence]. }
  split; simpl.
  - intros t0 th0 s g i H0 Ho. rewrite Hst.
    destruct (Hold _ _ _ _ _ H0 Ho) as (th1 & H1 & Ho1). eauto.
  - intros t1 t2 th1 th2 s1 g1 i1 s2 g2 i2 H1 H2 Ho1 Ho2 Hi.
    destruct (Hold _ _ _ _ _ H1 Ho1) as (? & ? & ?).
    destruct (Hold _ _ _ _ _ H2 Ho2) as (? & ? & ?). eauto.
Qed.

Lemma effect_release_preserves s g i v :
  owns th = Some (s, g, i) ->
  owns th' = None ->
  d_states m' = <[Z.to_nat i := v]> (d_states m) ->
  reservation_invariant (m', new_pool).
Proof.
  intros Ho Ho' Hst. destruct Hinv as [Hslot Hone].
  assert (Hold : forall t0 th0 s0 g0 i0,
             new_pool !! t0 = Some th0 ->
             owns th0 = Some (s0, g0, i0) ->
             t0 <> t /\ ts !! t0 = Some th0).
  { intros t0 th0 s0 g0 i0 H0 Ho0.
    apply new_pool_lookup in H0 as [[-> ->] | H0]; [congruence|assumption]. }
  split; simpl.
  - intros t0 th0 s0 g0 i0 H0 Ho0.
    destruct (Hold _ _ _ _ _ H0 Ho0) as [Hne H0'].
    rewrite Hst, list_lookup_insert_ne; [eauto|].
    intros Heq. apply Hne. symmetry. eauto.
  - intros t1 t2 th1 th2 s1 g1 i1 s2 g2 i2 H1 H2 Ho1 Ho2 Hi.
    destruct (Hold _ _ _ _ _ H1 Ho1) as [_ ?].
    destruct (Hold _ _ _ _ _ H2 Ho2) as [_ ?]. eauto.
Qed.

Lemma effect_acquire_preserves s g i w :
  owns th = None ->
  owns th' = Some (s, g, i) ->
  d_states m !! Z.to_nat i = Some w ->
  decodeStateFromElementState w <> e_WRITING ->
  decodeStateFromElementState w <> e_READING ->
  d_states m' = <[Z.to_nat i := encodeElementState g s]> (d_states m) ->
  reservation_invariant (m', new_pool).
Proof.
  intros Ho Ho' Hw HnW HnR Hst. destruct Hinv as [Hslot Hone].
  assert (Hother : forall t0 th0 s0 g0 i0,
             ts !! t0 = Some th0 ->
             owns th0 = Some (s0, g0, i0) ->
             Z.to_nat i0 <> Z.to_nat i).
  { intros t0 th0 s0 g0 i0 H0 Ho0 Heq.
    pose proof (Hslot _ _ _ _ _ H0 Ho0) as Hs0. simpl in Hs0.
    rewrite Heq, Hw in Hs0. injection Hs0 as ->.
    rewrite decodeState_encode in HnW, HnR.
    destruct (owns_state _ _ _ _ Ho0); congruence. }
  split; simpl.
  - intros t0 th0 s0 g0 i0 H0 Ho0. rewrite Hst.
    apply new_pool_lookup in H0 as [[-> ->] | [Hne H0]].
    + rewrite Ho' in Ho0. injection Ho0 as <- <- <-.
      apply list_lookup_insert_eq. eapply lookup_lt_Some, Hw.
    + rewrite list_lookup_insert_ne by (symmetry; eauto). eauto.
  - intros t1 t2 th1 th2 s1 g1 i1 s2 g2 i2 H1 H2 Ho1 Ho2 Hi.
    apply new_pool_lookup in H1 as [[-> ->] | [Hne1 H1]];
      apply new_pool_lookup in H2 as [[-> ->] | [Hne2 H2]].
    + reflexivity.
    + rewrite Ho' in Ho1. injection Ho1 as <- <- <-.
      exfalso. eapply Hother; eauto.
    + rewrite Ho' in Ho2. injection Ho2 as <- <- <-.
      exfalso. eapply Hother; eauto.
    + eauto.
Qed.
End Preservation.

Lemma step_preserves_invariant c c' :
  step c c' -> reservation_invariant c -> reservation_invariant c'.
Proof.
  intros [m ts t th m' th' Ht Hstep] Hinv.
  destruct (thread_step_effect _ _ _ _ Hstep).
  - eapply effect_keep_preserves; eauto.
  - eapply effect_acquire_preserves; eauto.
  - eapply effect_release_preserves; eauto.
Qed.

Lemma reachable_invariant capacity N c :
  reachable capacity N c -> reservation_invariant c.
Proof.
  intros (c0 & H0 & Hrun).
  apply reservation_invariant_initial in H0.
  induction Hrun as [|c1 c2 c3 Hs _ IH]; [assumption|].
  apply IH. eapply step_preserves_invariant; eassumption.
Qed.

(** C1: in every configuration that [N] threads reach from a fresh manager by
    interleaving the transitions of their calls, a reservation (writing or
    reading, of a given generation and index) is held by at most one thread;
    a held element shows the holder's generation and state. *)
Theorem reservations_exclusive (capacity : Z) (N : nat) (c : config) :
  reachable capacity N c ->
  exclusive c
  /\ forall t s generation index,
       holds c t s generation index ->
       (s = e_WRITING \/ s = e_READING)
       /\ d_states c.1 !! Z.to_nat index = Some (encodeElementState generation s).
Proof.
  intros Hr. destruct (reachable_invariant _ _ _ Hr) as [Hslot Hone]. split.
  - intros t1 t2 s g i (th1 & H1 & Ho1) (th2 & H2 & Ho2). eauto.
  - intros t s g i (th & Ht & Ho). split; [eapply owns_state, Ho|eauto].
Qed.

(** The functional form of the transitions stays within the relation, so a
    schedule that runs is a path of [step]. *)
Lemma thread_next_sound choice m th m' th' :
  thread_next choice m th = Some (m', th') -> thread_step m th m' th'.
Proof.
  intros H.
  destruct th as [|p|g i|p|p|g i|p|eg ei p|p|p|]; simpl in H;
    try destruct p as [| | | | |r|]; try destruct p as [| | | | | |r|];
    try destruct p; try destruct r; try destruct choice;
    inversion H; subst; try (constructor; reflexivity); constructor.
Qed.

Lemma schedule_sound turns :
  forall c c', schedule turns c = Some c' -> rtc step c c'.
Proof.
  induction turns as [|[t choice] turns IH]; intros [m ts] c' H; simpl in H.
  - injection H as <-. apply rtc_refl.
  - destruct (ts !! t) as [th|] eqn:Ht; [|discriminate].
    destruct (thread_next choice m th) as [[m' th']|] eqn:Hn; [|discriminate].
    eapply rtc_l; [|apply IH, H].
    eapply step_thread; [eassumption|]. eapply thread_next_sound, Hn.
Qed.

Lemma reservations_exclusive_witness :
  exists c,
    schedule (replicate 20 (0%nat, Call_reservePush)
              ++ replicate 13 (1%nat, Call_reservePop)
              ++ replicate 3 (0%nat, Call_reservePush))
             (Manager 0 0 2 (2 ^ 30 - 1) (2 ^ 31 - 1) [0; 0], [T_idle; T_idle])
    = Some c
    /\ holds c 0%nat e_WRITING 1 0
    /\ holds c 1%nat e_READING 0 1
    /\ exclusive c
    /\ forall t s generation index,
         holds c t s generation index ->
         (s = e_WRITING \/ s = e_READING)
         /\ d_states c.1 !! Z.to_nat index = Some (encodeElementState generation s).
Proof.
  eexists. split; [vm_compute; reflexivity|].
  split; [eexists; split; vm_compute; reflexivity|].
  split; [eexists; split; vm_compute; reflexivity|].
  apply (reservations_exclusive 2 2).
  eexists. split; [vm_compute; reflexivity|].
  apply (schedule_sound (replicate 20 (0%nat, Call_reservePush)
                         ++ replicate 13 (1%nat, Call_reservePop)
                         ++ replicate 3 (0%nat, Call_reservePush))).
  vm_compute. reflexivity.
Defined.

(** * Further properties of the component *)

(** ** The disabled flag of the push cursor *)

Lemma land_disabled_mask w :
  Z.land w e_DISABLED_STATE_MASK = if Z.testbit w 31 then 2 ^ 31 else 0.
Proof.
  change e_DISABLED_STATE_MASK with (2 ^ 31).
  apply Z.bits_inj'. intros n Hn.
  rewrite Z.land_spec, Z.pow2_bits_eqb by lia.
  destruct (Z.eqb_spec 31 n) as [<-|Hne].
  - rewrite andb_true_r. destruct (Z.testbit w 31) eqn:E.
    + symmetry. rewrite Z.pow2_bits_eqb by lia. reflexivity.
    + symmetry. apply Z.bits_0.
  - rewrite andb_false_r. destruct (Z.testbit w 31).
    + symmetry. rewrite Z.pow2_bits_eqb by lia. by apply Z.eqb_neq.
    + symmetry. apply Z.bits_0.
Qed.

Lemma isDisabledFlagSet_testbit w : isDisabledFlagSet w = Z.testbit w 31.
Proof.
  unfold isDisabledFlagSet. rewrite land_disabled_mask.
  by destruct (Z.testbit w 31).
Qed.

Lemma testbit_31_word w : 0 <= w < 2 ^ 32 -> Z.testbit w 31 = (2 ^ 31 <=? w).
Proof.
  intros H.
  assert (Hq : 0 <= w / 2 ^ 31 < 2).
  { split; [apply Z.div_pos; lia|apply Z.div_lt_upper_bound; lia]. }
  pose proof (Z.div_mod w (2 ^ 31) ltac:(lia)) as Hd.
  pose proof (Z.mod_pos_bound w (2 ^ 31) ltac:(lia)) as Hr.
  destruct (Z.leb_spec (2 ^ 31) w).
  - apply Z.testbit_true; [lia|].
    replace (w / 2 ^ 31) with 1 by lia. reflexivity.
  - apply Z.testbit_false; [lia|].
    replace (w / 2 ^ 31) with 0 by lia. reflexivity.
Qed.

Lemma isDisabledFlagSet_small w : 0 <= w < 2 ^ 31 -> isDisabledFlagSet w = false.
Proof.
  intros H. rewrite isDisabledFlagSet_testbit, testbit_31_word by lia.
  apply Z.leb_gt. lia.
Qed.

Lemma discardDisabledFlag_small w : 0 <= w < 2 ^ 31 -> discardDisabledFlag w = w.
Proof. intros H. rewrite discardDisabledFlag_mod. by apply Z.mod_small. Qed.

Lemma cursor_word_parts w :
  0 <= w < 2 ^ 32 ->
  w = discardDisabledFlag w + (if isDisabledFlagSet w then 2 ^ 31 else 0)
  /\ 0 <= discardDisabledFlag w < 2 ^ 31.
Proof.
  intros H.
  pose proof (discardDisabledFlag_range w) as Hr.
  split; [|assumption].
  rewrite isDisabledFlagSet_testbit, testbit_31_word, discardDisabledFlag_mod by lia.
  pose proof (Z.div_mod w (2 ^ 31) ltac:(lia)) as Hd.
  assert (Hq : 0 <= w / 2 ^ 31 < 2).
  { split; [apply Z.div_pos; lia|apply Z.div_lt_upper_bound; lia]. }
  pose proof (Z.mod_pos_bound w (2 ^ 31) ltac:(lia)).
  destruct (Z.leb_spec (2 ^ 31) w); nia.
Qed.

(** X1: a 32-bit cursor word is its combined index plus 2^31 when the
    disabled flag is set, and the combined index alone when it is not; the
    combined index is below 2^31 and carries no flag itself. *)
Theorem cursor_word_decomposition (w : Z) :
  0 <= w < 2 ^ 32 ->
  w = discardDisabledFlag w + (if isDisabledFlagSet w then 2 ^ 31 else 0)
  /\ 0 <= discardDisabledFlag w < 2 ^ 31
  /\ isDisabledFlagSet (discardDisabledFlag w) = false
  /\ discardDisabledFlag (discardDisabledFlag w) = discardDisabledFlag w.
Proof.
  intros H.
  destruct (cursor_word_parts w H) as [Hd Hr].
  split; [assumption|split; [assumption|split]].
  - by apply isDisabledFlagSet_small.
  - by apply discardDisabledFlag_small.
Qed.

Lemma cursor_word_decomposition_witness :
  2147483653 = discardDisabledFlag 2147483653
               + (if isDisabledFlagSet 2147483653 then 2 ^ 31 else 0)
  /\ 0 <= discardDisabledFlag 2147483653 < 2 ^ 31
  /\ isDisabledFlagSet (discardDisabledFlag 2147483653) = false
  /\ discardDisabledFlag (discardDisabledFlag 2147483653)
     = discardDisabledFlag 2147483653.
Proof. apply (cursor_word_decomposition 2147483653). lia. Defined.

Lemma isDisabledFlagSet_lor w :
  isDisabledFlagSet (Z.lor w e_DISABLED_STATE_MASK) = true.
Proof.
  rewrite isDisabledFlagSet_testbit, Z.lor_spec.
  change e_DISABLED_STATE_MASK with (2 ^ 31).
  rewrite Z.pow2_bits_eqb by lia. apply orb_true_r.
Qed.

Lemma discardDisabledFlag_lor w :
  discardDisabledFlag (Z.lor w e_DISABLED_STATE_MASK) = discardDisabledFlag w.
Proof.
  unfold discardDisabledFlag. rewrite Z.land_lor_distr_l.
  change (Z.land e_DISABLED_STATE_MASK (wrap32 (Z.lnot e_DISABLED_STATE_MASK)))
    with 0.
  apply Z.lor_0_r.
Qed.

(** ** disable and enable *)

Lemma disable_run m fuel :
  disable (S (S fuel)) m =
  Some (Returned tt,
        if isDisabledFlagSet (d_pushIndex m) then m
        else set_pushIndex m (Z.lor (d_pushIndex m) e_DISABLED_STATE_MASK)).
Proof.
  assert (E1 : disable_step m FlagLoad =
               if isDisabledFlagSet (d_pushIndex m) then (m, FlagRet)
               else (m, FlagSwap (d_pushIndex m))) by reflexivity.
  assert (E2 : disable_step m (FlagSwap (d_pushIndex m)) =
               (set_pushIndex m (Z.lor (d_pushIndex m) e_DISABLED_STATE_MASK),
                FlagRet)).
  { unfold disable_step, testAndSwap_pushIndex. by rewrite !Z.eqb_refl. }
  unfold disable. rewrite run_step, E1 by reflexivity.
  destruct (isDisabledFlagSet (d_pushIndex m)); cbn [fst snd].
  - apply run_final. reflexivity.
  - rewrite run_step, E2 by reflexivity. apply run_final. reflexivity.
Qed.

Lemma enable_run m fuel :
  enable (S (S fuel)) m =
  Some (Returned tt,
        if isDisabledFlagSet (d_pushIndex m)
        then set_pushIndex m (discardDisabledFlag (d_pushIndex m))
        else m).
Proof.
  assert (E1 : enable_step m FlagLoad =
               if negb (isDisabledFlagSet (d_pushIndex m)) then (m, FlagRet)
               else (m, FlagSwap (d_pushIndex m))) by reflexivity.
  assert (E2 : enable_step m (FlagSwap (d_pushIndex m)) =
               (set_pushIndex m (discardDisabledFlag (d_pushIndex m)), FlagRet)).
  { unfold enable_step, testAndSwap_pushIndex. by rewrite !Z.eqb_refl. }
  unfold enable. rewrite run_step, E1 by reflexivity.
  destruct (isDisabledFlagSet (d_pushIndex m)); cbn [fst snd negb].
  - rewrite run_step, E2 by reflexivity. apply run_final. reflexivity.
  - apply run_final. reflexivity.
Qed.

(** X2: [disable] returns with the queue disabled; the combined index in the
    push cursor, the pop cursor and the elements are as before, and on a
    queue that is already disabled nothing changes at all. *)
Theorem disable_keeps_indices (m : manager) (fuel : nat) :
  exists m',
    disable (S (S fuel)) m = Some (Returned tt, m')
    /\ isEnabled m' = false
    /\ discardDisabledFlag (d_pushIndex m') = discardDisabledFlag (d_pushIndex m)
    /\ d_popIndex m' = d_popIndex m
    /\ d_states m' = d_states m
    /\ (isEnabled m = false -> m' = m).
Proof.
  eexists. split; [apply disable_run|]. unfold isEnabled.
  destruct (isDisabledFlagSet (d_pushIndex m)) eqn:E; simpl.
  - rewrite E. auto.
  - rewrite isDisabledFlagSet_lor, discardDisabledFlag_lor.
    repeat split; try reflexivity. discriminate.
Qed.

(** X3: [enable] returns with the queue enabled; the combined index in the
    push cursor, the pop cursor and the elements are as before, and on a
    queue that is already enabled nothing changes at all. *)
Theorem enable_keeps_indices (m : manager) (fuel : nat) :
  exists m',
    enable (S (S fuel)) m = Some (Returned tt, m')
    /\ isEnabled m' = true
    /\ discardDisabledFlag (d_pushIndex m') = discardDisabledFlag (d_pushIndex m)
    /\ d_popIndex m' = d_popIndex m
    /\ d_states m' = d_states m
    /\ (isEnabled m = true -> m' = m).
Proof.
  eexists. split; [apply enable_run|]. unfold isEnabled.
  pose proof (discardDisabledFlag_range (d_pushIndex m)) as Hr.
  destruct (isDisabledFlagSet (d_pushIndex m)) eqn:E; simpl.
  - rewrite isDisabledFlagSet_small, discardDisabledFlag_small by assumption.
    repeat split; try reflexivity. discriminate.
  - rewrite E. auto.
Qed.

(** X4: on an enabled queue whose push cursor is a 32-bit word, [disable]
    followed by [enable] gives back the manager exactly as it was. *)
Theorem disable_enable_round_trip (m : manager) (fuel fuel' : nat) :
  0 <= d_pushIndex m < 2 ^ 32 ->
  isEnabled m = true ->
  exists m1,
    disable (S (S fuel)) m = Some (Returned tt, m1)
    /\ isEnabled m1 = false
    /\ enable (S (S fuel')) m1 = Some (Returned tt, m).
Proof.
  intros Hw He. unfold isEnabled in *.
  apply negb_true_iff in He.
  eexists. split; [apply disable_run|]. rewrite He.
  split; [simpl; by rewrite isDisabledFlagSet_lor|].
  rewrite enable_run. simpl.
  rewrite isDisabledFlagSet_lor, discardDisabledFlag_lor.
  destruct (cursor_word_parts (d_pushIndex m) Hw) as [Hd _].
  rewrite He in Hd. rewrite Z.add_0_r in Hd. rewrite <- Hd.
  by destruct m.
Qed.

Lemma disable_enable_round_trip_witness :
  exists m0 m1,
    create 4 = Some m0
    /\ disable 2 m0 = Some (Returned tt, m1)
    /\ isEnabled m1 = false
    /\ enable 2 m1 = Some (Returned tt, m0).
Proof.
  eexists. eexists. split; [vm_compute; reflexivity|].
  match goal with
  | |- disable 2 ?m = _ /\ _ =>
      destruct (disable_enable_round_trip m 0 0) as (m1 & H1 & H2 & H3)
  end.
  - vm_compute. split; [discriminate|reflexivity].
  - vm_compute. reflexivity.
  - vm_compute in H1. injection H1 as <-. auto.
Defined.

(** ** What the constants leave room for *)

(** X5: in a constructed manager every combined index up to
    [d_maxCombinedIndex] is a cursor word without the disabled flag, its
    generation is at most [d_maxGeneration] and its element index is below
    the capacity, and the generation survives the encoding into an element
    word. *)
Theorem combined_index_fits (m : manager) (combinedIndex : Z) :
  constants_ok m ->
  0 <= combinedIndex <= d_maxCombinedIndex m ->
  isDisabledFlagSet combinedIndex = false
  /\ discardDisabledFlag combinedIndex = combinedIndex
  /\ 0 <= combinedIndex / d_capacity m <= d_maxGeneration m
  /\ 0 <= combinedIndex mod d_capacity m < d_capacity m
  /\ forall s,
       decodeGenerationFromElementState
         (encodeElementState (combinedIndex / d_capacity m) s)
       = combinedIndex / d_capacity m.
Proof.
  intros Hok Hci.
  destruct (constants_ok_bounds m Hok) as (Hc & Hg & Hmax & Hb).
  assert (Hgen : 0 <= combinedIndex / d_capacity m <= d_maxGeneration m).
  { split; [apply Z.div_pos; lia|].
    apply Z.lt_succ_r, Z.div_lt_upper_bound; nia. }
  split; [apply isDisabledFlagSet_small; lia|].
  split; [apply discardDisabledFlag_small; lia|].
  split; [assumption|].
  split; [apply Z.mod_pos_bound; lia|].
  intros s. rewrite decodeGeneration_encode. apply Z.mod_small. lia.
Qed.

Lemma combined_index_fits_witness :
  exists m,
    create 3 = Some m
    /\ isDisabledFlagSet 2147483645 = false
    /\ discardDisabledFlag 2147483645 = 2147483645
    /\ 0 <= 2147483645 / d_capacity m <= d_maxGeneration m
    /\ 0 <= 2147483645 mod d_capacity m < d_capacity m
    /\ forall s,
         decodeGenerationFromElementState
           (encodeElementState (2147483645 / d_capacity m) s)
         = 2147483645 / d_capacity m.
Proof.
  eexists. split; [vm_compute; reflexivity|].
  match goal with
  | |- context [d_maxGeneration ?m] => apply (combined_index_fits m 2147483645)
  end.
  - apply (create_constants_ok 3). reflexivity.
  - vm_compute. split; discriminate.
Defined.

(** X6: a generation up to [d_maxGeneration] and an index below the capacity
    combine, without overflow of the 32-bit arithmetic, into a combined index
    up to [d_maxCombinedIndex] from which division and remainder by the
    capacity give both back. *)
Theorem combined_index_round_trip (m : manager) (generation index : Z) :
  constants_ok m ->
  0 <= generation <= d_maxGeneration m ->
  0 <= index < d_capacity m ->
  let combinedIndex := generation * d_capacity m + index in
  wrap32 (wrap32 (generation * d_capacity m) + index) = combinedIndex
  /\ 0 <= combinedIndex <= d_maxCombinedIndex m
  /\ combinedIndex / d_capacity m = generation
  /\ combinedIndex mod d_capacity m = index.
Proof.
  intros Hok Hg Hi ci.
  destruct (constants_ok_bounds m Hok) as (Hc & Hgm & Hmax & Hb).
  assert (Hr : 0 <= ci <= d_maxCombinedIndex m) by (unfold ci; nia).
  split; [|split; [assumption|split]].
  - rewrite wrap32_add_l. apply wrap32_small. lia.
  - unfold ci. symmetry. apply (Z.div_unique _ _ _ index); lia.
  - unfold ci. symmetry. apply (Z.mod_unique _ _ generation); lia.
Qed.

Lemma combined_index_round_trip_witness :
  exists m,
    create 3 = Some m
    /\ wrap32 (wrap32 (715827881 * d_capacity m) + 2) = 715827881 * d_capacity m + 2
    /\ 0 <= 715827881 * d_capacity m + 2 <= d_maxCombinedIndex m
    /\ (715827881 * d_capacity m + 2) / d_capacity m = 715827881
    /\ (715827881 * d_capacity m + 2) mod d_capacity m = 2.
Proof.
  eexists. split; [vm_compute; reflexivity|].
  match goal with
  | |- context [d_maxCombinedIndex ?m] =>
      apply (combined_index_round_trip m 715827881 2)
  end.
  - apply (create_constants_ok 3). reflexivity.
  - vm_compute. split; discriminate.
  - vm_compute. split; [discriminate|reflexivity].
Defined.

(** ** circularDifference, continued *)

(** X7: exchanging the two arguments of [circularDifference] negates the
    result, ties included, and the difference of a value with itself is 0. *)
Theorem circularDifference_antisymmetric (a b modulo : Z) :
  0 < modulo <= 2 ^ 31 ->
  0 <= a < modulo ->
  0 <= b < modulo ->
  exists r,
    circularDifference a b modulo = Some r
    /\ circularDifference b a modulo = Some (- r)
    /\ circularDifference a a modulo = Some 0.
Proof.
  intros Hm Ha Hb.
  rewrite !circularDifference_eq by assumption.
  assert (Hh : 0 <= modulo / 2) by (apply Z.div_pos; lia).
  eexists. split; [reflexivity|]. split.
  - case_compare; f_equal; lia.
  - rewrite Z.sub_diag. case_compare; f_equal; lia.
Qed.

Lemma circularDifference_antisymmetric_witness :
  exists r,
    circularDifference 0 2 4 = Some r
    /\ circularDifference 2 0 4 = Some (- r)
    /\ circularDifference 0 0 4 = Some 0.
Proof. apply (circularDifference_antisymmetric 0 2 4); lia. Defined.

(** ** commitPushIndex, and commits without the reservation *)

(** X8: when the element at [index] holds [generation] in state [e_WRITING],
    [commitPushIndex] returns having stored the same generation in state
    [e_FULL] into that element; the cursors and the other elements are as
    before. *)
Theorem commitPushIndex_stores_full
    (m : manager) (generation index : Z) (fuel : nat) :
  constants_ok m ->
  0 <= generation <= d_maxGeneration m ->
  0 <= index < d_capacity m ->
  d_states m !! Z.to_nat index = Some (encodeElementState generation e_WRITING) ->
  commitPushIndex (S (S (S fuel))) m generation index =
  Some (Returned tt,
        set_states m
          (<[Z.to_nat index := encodeElementState generation e_FULL]> (d_states m))).
Proof.
  intros Hok Hg Hi Hs.
  destruct (constants_ok_bounds m Hok) as (_ & Hmax & _).
  unfold commitPushIndex, commitPushIndex_step.
  rewrite (commit_run e_WRITING) by (try assumption; lia).
  reflexivity.
Qed.

Lemma commitPushIndex_stores_full_witness :
  exists m0 m1,
    create 4 = Some m0
    /\ reservePushIndex 3 m0 = Some (Returned (Reserved 0 0), m1)
    /\ commitPushIndex 3 m1 0 0 =
       Some (Returned tt,
             set_states m1
               (<[Z.to_nat 0 := encodeElementState 0 e_FULL]> (d_states m1))).
Proof.
  eexists. eexists.
  do 2 (split; [vm_compute; reflexivity|]).
  match goal with
  | |- commitPushIndex 3 ?m 0 0 = _ => apply (commitPushIndex_stores_full m 0 0 0)
  end; by_evaluation.
Defined.

Lemma commit_refused held stored m generation index w fuel :
  d_states m !! Z.to_nat index = Some w ->
  decodeStateFromElementState w <> held
  \/ decodeGenerationFromElementState w <> generation ->
  run (commit_step held stored) commit_final (S (S fuel)) m
      (CommitEnter generation index)
  = Some (AssertionFailed, m).
Proof.
  intros Hs Hbad.
  assert (E1 : commit_step held stored m (CommitEnter generation index)
               = (m, CommitAbort)
               \/ (commit_step held stored m (CommitEnter generation index)
                   = (m, CommitCheck generation index)
                   /\ held = decodeStateFromElementState w)).
  { unfold commit_step, load_state. rewrite Hs.
    destruct (negb (generation <=? d_maxGeneration m)); [by left|].
    destruct (negb (index <? d_capacity m)); [by left|].
    destruct (decide (held = decodeStateFromElementState w)); auto. }
  assert (E2 : held = decodeStateFromElementState w ->
               commit_step held stored m (CommitCheck generation index)
               = (m, CommitAbort)).
  { intros Heq. unfold commit_step, load_state. rewrite Hs.
    destruct (Z.eqb_spec generation (decodeGenerationFromElementState w));
      [destruct Hbad; congruence|reflexivity]. }
  rewrite run_step by reflexivity.
  destruct E1 as [-> | [-> Heq]]; cbn [fst snd].
  - by apply run_final.
  - rewrite run_step, (E2 Heq) by reflexivity. by apply run_final.
Qed.

(** X9: a commit for a reservation that is not held stops at an assertion
    and changes nothing: [commitPushIndex] when the element is not in state
    [e_WRITING] or not of the given generation, [commitPopIndex] when it is
    not in state [e_READING] or not of the given generation. *)
Theorem commit_without_reservation_stops
    (m : manager) (generation index w : Z) (fuel : nat) :
  d_states m !! Z.to_nat index = Some w ->
  (decodeStateFromElementState w <> e_WRITING
   \/ decodeGenerationFromElementState w <> generation ->
   commitPushIndex (S (S fuel)) m generation index = Some (AssertionFailed, m))
  /\ (decodeStateFromElementState w <> e_READING
      \/ decodeGenerationFromElementState w <> generation ->
      commitPopIndex (S (S fuel)) m generation index = Some (AssertionFailed, m)).
Proof.
  intros Hs. split; intros Hbad.
  - by apply (commit_refused e_WRITING _ m generation index w).
  - by apply (commit_refused e_READING _ m generation index w).
Qed.

Lemma commit_without_reservation_stops_witness :
  exists m,
    create 4 = Some m
    /\ commitPushIndex 2 m 0 0 = Some (AssertionFailed, m)
    /\ commitPopIndex 2 m 1 0 = Some (AssertionFailed, m).
Proof.
  eexists. split; [vm_compute; reflexivity|].
  match goal with
  | |- commitPushIndex 2 ?m 0 0 = _ /\ _ =>
      pose proof (commit_without_reservation_stops m 0 0 0 0 eq_refl) as [H1 _];
      pose proof (commit_without_reservation_stops m 1 0 0 0 eq_refl) as [_ H2]
  end.
  split.
  - apply H1. left. vm_compute. discriminate.
  - apply H2. right. vm_compute. discriminate.
Defined.

(** ** Reservations: success, refusal, waiting *)

Lemma testAndSwap_state_hit m index compareValue swapValue :
  d_states m !! Z.to_nat index = Some compareValue ->
  testAndSwap_state m index compareValue swapValue
  = Some (compareValue,
          set_states m (<[Z.to_nat index := swapValue]> (d_states m))).
Proof. intros H. unfold testAndSwap_state. by rewrite H, Z.eqb_refl. Qed.

Lemma testAndSwap_state_miss m index compareValue swapValue w :
  d_states m !! Z.to_nat index = Some w ->
  w <> compareValue ->
  testAndSwap_state m index compareValue swapValue = Some (w, m).
Proof.
  intros H Hne. unfold testAndSwap_state. rewrite H.
  by destruct (Z.eqb_spec w compareValue).
Qed.

Lemma reservePushIndex_hit m fuel :
  0 <= d_pushIndex m < 2 ^ 31 ->
  d_states m !! Z.to_nat (d_pushIndex m mod d_capacity m)
  = Some (encodeElementState (d_pushIndex m / d_capacity m) e_EMPTY) ->
  reservePushIndex (S (S (S fuel))) m =
  Some (Returned (Reserved (d_pushIndex m / d_capacity m)
                           (d_pushIndex m mod d_capacity m)),
        set_pushIndex
          (set_states m
             (<[Z.to_nat (d_pushIndex m mod d_capacity m) :=
                  encodeElementState (d_pushIndex m / d_capacity m) e_WRITING]>
                (d_states m)))
          (nextCombinedIndex m (d_pushIndex m))).
Proof.
  intros Hw Hs.
  set (g := d_pushIndex m / d_capacity m) in *.
  set (i := d_pushIndex m mod d_capacity m) in *.
  set (m1 := set_states m (<[Z.to_nat i := encodeElementState g e_WRITING]> (d_states m))).
  assert (E2 : reservePushIndex_step m (PushLoop (d_pushIndex m))
               = (m1, PushFinish (d_pushIndex m) g i)).
  { unfold reservePushIndex_step.
    rewrite isDisabledFlagSet_small, discardDisabledFlag_small by assumption.
    fold g i. rewrite (testAndSwap_state_hit _ _ _ _ Hs), Z.eqb_refl.
    reflexivity. }
  assert (E3 : reservePushIndex_step m1 (PushFinish (d_pushIndex m) g i)
               = (set_pushIndex m1 (nextCombinedIndex m (d_pushIndex m)),
                  PushRet (Reserved g i))).
  { unfold reservePushIndex_step, testAndSwap_pushIndex.
    change (d_pushIndex m1) with (d_pushIndex m). by rewrite Z.eqb_refl. }
  unfold reservePushIndex.
  rewrite run_step by reflexivity.
  change (reservePushIndex_step m PushLoad) with (m, PushLoop (d_pushIndex m)).
  cbn [fst snd].
  rewrite run_step, E2 by reflexivity. cbn [fst snd].
  rewrite run_step, E3 by reflexivity. cbn [fst snd].
  apply run_final. reflexivity.
Qed.

Lemma reservePopIndex_hit m fuel :
  d_states m !! Z.to_nat (d_popIndex m mod d_capacity m)
  = Some (encodeElementState (d_popIndex m / d_capacity m) e_FULL) ->
  reservePopIndex (S (S (S fuel))) m =
  Some (Returned (Reserved (d_popIndex m / d_capacity m)
                           (d_popIndex m mod d_capacity m)),
        set_popIndex
          (set_states m
             (<[Z.to_nat (d_popIndex m mod d_capacity m) :=
                  encodeElementState (d_popIndex m / d_capacity m) e_READING]>
                (d_states m)))
          (nextCombinedIndex m (d_popIndex m))).
Proof.
  intros Hs.
  set (g := d_popIndex m / d_capacity m) in *.
  set (i := d_popIndex m mod d_capacity m) in *.
  set (m1 := set_states m (<[Z.to_nat i := encodeElementState g e_READING]> (d_states m))).
  assert (E2 : reservePopIndex_step m (PopLoop (d_popIndex m))
               = (m1, PopFinish (d_popIndex m) g i)).
  { unfold reservePopIndex_step. fold g i.
    rewrite (testAndSwap_state_hit _ _ _ _ Hs), Z.eqb_refl. reflexivity. }
  assert (E3 : reservePopIndex_step m1 (PopFinish (d_popIndex m) g i)
               = (set_popIndex m1 (nextCombinedIndex m (d_popIndex m)),
                  PopRet (Reserved g i))).
  { unfold reservePopIndex_step, testAndSwap_popIndex.
    change (d_popIndex m1) with (d_popIndex m). by rewrite Z.eqb_refl. }
  unfold reservePopIndex.
  rewrite run_step by reflexivity.
  change (reservePopIndex_step m PopLoad) with (m, PopLoop (d_popIndex m)).
  cbn [fst snd].
  rewrite run_step, E2 by reflexivity. cbn [fst snd].
  rewrite run_step, E3 by reflexivity. cbn [fst snd].
  apply run_final. reflexivity.
Qed.

Lemma frame_set_states_insert m (j : nat) v :
  frame (set_states m (<[j := v]> (d_states m))) = frame m.
Proof. unfold frame. simpl. by rewrite length_insert. Qed.

(** X10: on an enabled queue, when the element under the push cursor is
    [e_EMPTY] at the cursor's generation, [reservePushIndex] returns that
    generation and index; the element is then [e_WRITING] at the same
    generation, the push cursor has moved to the next combined index, and
    the pop cursor, the other elements, the constants and the size of the
    array are as before. *)
Theorem reservePushIndex_reserves_empty_element (m : manager) (fuel : nat) :
  0 <= d_pushIndex m < 2 ^ 31 ->
  d_states m !! Z.to_nat (d_pushIndex m mod d_capacity m)
  = Some (encodeElementState (d_pushIndex m / d_capacity m) e_EMPTY) ->
  exists m',
    reservePushIndex (S (S (S fuel))) m =
    Some (Returned (Reserved (d_pushIndex m / d_capacity m)
                             (d_pushIndex m mod d_capacity m)), m')
    /\ d_states m' !! Z.to_nat (d_pushIndex m mod d_capacity m)
       = Some (encodeElementState (d_pushIndex m / d_capacity m) e_WRITING)
    /\ (forall j : nat,
          j <> Z.to_nat (d_pushIndex m mod d_capacity m) ->
          d_states m' !! j = d_states m !! j)
    /\ d_pushIndex m' = nextCombinedIndex m (d_pushIndex m)
    /\ d_popIndex m' = d_popIndex m
    /\ frame m' = frame m.
Proof.
  intros Hw Hs. eexists. split; [by apply reservePushIndex_hit|].
  split; [|split; [|split; [|split]]]; simpl.
  - apply list_lookup_insert_eq. eapply lookup_lt_Some, Hs.
  - intros j Hj. by apply list_lookup_insert_ne.
  - reflexivity.
  - reflexivity.
  - apply frame_set_states_insert.
Qed.

Lemma reservePushIndex_reserves_empty_element_witness :
  exists m',
    reservePushIndex 3 (Manager 1 0 4 536870911 2147483647 [2; 0; 0; 0])
    = Some (Returned (Reserved 0 1), m')
    /\ d_states m' !! 1%nat = Some (encodeElementState 0 e_WRITING)
    /\ d_pushIndex m' = 2.
Proof.
  destruct (reservePushIndex_reserves_empty_element
              (Manager 1 0 4 536870911 2147483647 [2; 0; 0; 0]) 0)
    as (m' & H & Hst & _ & Hpush & _).
  - vm_compute. split; [discriminate|reflexivity].
  - vm_compute. reflexivity.
  - exists m'. split; [exact H|]. split; [exact Hst|exact Hpush].
Defined.

(** X11: when the element under the pop cursor is [e_FULL] at the cursor's
    generation, [reservePopIndex] returns that generation and index; the
    element is then [e_READING] at the same generation, the pop cursor has
    moved to the next combined index, and the push cursor, the other
    elements, the constants and the size of the array are as before. *)
Theorem reservePopIndex_reserves_full_element (m : manager) (fuel : nat) :
  d_states m !! Z.to_nat (d_popIndex m mod d_capacity m)
  = Some (encodeElementState (d_popIndex m / d_capacity m) e_FULL) ->
  exists m',
    reservePopIndex (S (S (S fuel))) m =
    Some (Returned (Reserved (d_popIndex m / d_capacity m)
                             (d_popIndex m mod d_capacity m)), m')
    /\ d_states m' !! Z.to_nat (d_popIndex m mod d_capacity m)
       = Some (encodeElementState (d_popIndex m / d_capacity m) e_READING)
    /\ (forall j : nat,
          j <> Z.to_nat (d_popIndex m mod d_capacity m) ->
          d_states m' !! j = d_states m !! j)
    /\ d_popIndex m' = nextCombinedIndex m (d_popIndex m)
    /\ d_pushIndex m' = d_pushIndex m
    /\ frame m' = frame m.
Proof.
  intros Hs. eexists. split; [by apply reservePopIndex_hit|].
  split; [|split; [|split; [|split]]]; simpl.
  - apply list_lookup_insert_eq. eapply lookup_lt_Some, Hs.
  - intros j Hj. by apply list_lookup_insert_ne.
  - reflexivity.
  - reflexivity.
  - apply frame_set_states_insert.
Qed.

Lemma reservePopIndex_reserves_full_element_witness :
  exists m',
    reservePopIndex 3 (Manager 6 5 4 536870911 2147483647 [8; 6; 4; 4])
    = Some (Returned (Reserved 1 1), m')
    /\ d_states m' !! 1%nat = Some (encodeElementState 1 e_READING)
    /\ d_popIndex m' = 6.
Proof.
  destruct (reservePopIndex_reserves_full_element
              (Manager 6 5 4 536870911 2147483647 [8; 6; 4; 4]) 0)
    as (m' & H & Hst & _ & Hpop & _).
  - vm_compute. reflexivity.
  - exists m'. split; [exact H|]. split; [exact Hst|exact Hpop].
Defined.

(** X12: when the element under the pop cursor is [e_EMPTY], or is of another
    generation than the cursor, [reservePopIndex] returns [e_QUEUE_EMPTY] and
    changes nothing (the generation of the cursor fitting the 30 bits of an
    element word). *)
Theorem reservePopIndex_queue_empty (m : manager) (w : Z) (fuel : nat) :
  0 <= d_popIndex m / d_capacity m < 2 ^ 30 ->
  d_states m !! Z.to_nat (d_popIndex m mod d_capacity m) = Some w ->
  decodeStateFromElementState w = e_EMPTY
  \/ decodeGenerationFromElementState w <> d_popIndex m / d_capacity m ->
  reservePopIndex (S (S fuel)) m = Some (Returned (Refused e_QUEUE_EMPTY), m).
Proof.
  intros Hg Hs Hw.
  set (g := d_popIndex m / d_capacity m) in *.
  assert (Hne : w <> encodeElementState g e_FULL).
  { intros ->. rewrite decodeState_encode, decodeGeneration_encode in Hw.
    rewrite Z.mod_small in Hw by assumption. destruct Hw; congruence. }
  assert (E2 : reservePopIndex_step m (PopLoop (d_popIndex m))
               = (m, PopRet (Refused e_QUEUE_EMPTY))).
  { unfold reservePopIndex_step. fold g.
    rewrite (testAndSwap_state_miss _ _ _ _ _ Hs Hne).
    destruct (Z.eqb_spec (encodeElementState g e_FULL) w); [congruence|].
    destruct (Z.eqb_spec g (decodeGenerationFromElementState w)) as [Heq|Hd];
      [|reflexivity].
    destruct Hw as [-> | Hw]; [reflexivity|congruence]. }
  unfold reservePopIndex.
  rewrite run_step by reflexivity.
  change (reservePopIndex_step m PopLoad) with (m, PopLoop (d_popIndex m)).
  cbn [fst snd].
  rewrite run_step, E2 by reflexivity. by apply run_final.
Qed.

Lemma reservePopIndex_queue_empty_witness :
  reservePopIndex 2 (Manager 6 6 4 536870911 2147483647 [8; 8; 4; 4])
  = Some (Returned (Refused e_QUEUE_EMPTY),
          Manager 6 6 4 536870911 2147483647 [8; 8; 4; 4]).
Proof.
  apply (reservePopIndex_queue_empty
           (Manager 6 6 4 536870911 2147483647 [8; 8; 4; 4]) 4 0).
  - vm_compute. split; [discriminate|reflexivity].
  - vm_compute. reflexivity.
  - left. vm_compute. reflexivity.
Defined.

(** The element under the push cursor is one generation behind the cursor,
    the wrap from [d_maxGeneration] to 0 included. *)
Lemma one_generation_behind m g g' :
  constants_ok m ->
  0 <= g <= d_maxGeneration m ->
  (1 <= g /\ g' = g - 1) \/ (g = 0 /\ g' = d_maxGeneration m /\ 2 <= d_maxGeneration m) ->
  ((1 =? to_int (wrap32 (g - g')))
   || (wrap32 (- d_maxGeneration m) =? wrap32 (to_int (wrap32 (g - g'))))) = true
  /\ circularDifference g g' (wrap32 (d_maxGeneration m + 1)) = Some 1
  /\ 0 <= g' < 2 ^ 30 /\ g <> g'.
Proof.
  intros Hok Hg Hcase.
  destruct (constants_ok_bounds m Hok) as (_ & Hmax & _).
  rewrite (wrap32_small (d_maxGeneration m + 1)) by lia.
  rewrite circularDifference_eq by lia.
  rewrite (to_int_wrap32 (g - g')) by lia.
  set (M := d_maxGeneration m + 1).
  assert (HM : 2 * (M / 2) <= M <= 2 * (M / 2) + 1).
  { pose proof (Z.div_mod M 2 ltac:(lia)).
    pose proof (Z.mod_pos_bound M 2 ltac:(lia)). lia. }
  split; [|split; [|lia]].
  - destruct Hcase as [[H1 ->] | (-> & -> & H2)].
    + replace (g - (g - 1)) with 1 by lia. reflexivity.
    + rewrite Z.sub_0_l, Z.eqb_refl. apply orb_true_r.
  - unfold M in *. destruct Hcase as [[H1 ->] | (-> & -> & H2)];
      case_compare; f_equal; lia.
Qed.

Lemma reservePushIndex_behind_step m g' s :
  constants_ok m ->
  0 <= d_pushIndex m <= d_maxCombinedIndex m ->
  d_states m !! Z.to_nat (d_pushIndex m mod d_capacity m)
  = Some (encodeElementState g' s) ->
  (1 <= d_pushIndex m / d_capacity m /\ g' = d_pushIndex m / d_capacity m - 1)
  \/ (d_pushIndex m / d_capacity m = 0 /\ g' = d_maxGeneration m
      /\ 2 <= d_maxGeneration m) ->
  reservePushIndex_step m (PushLoop (d_pushIndex m))
  = (m, match s with
        | e_READING => PushReload
        | _ => PushRet (Refused e_QUEUE_FULL)
        end).
Proof.
  intros Hok Hp Hs Hcase.
  set (g := d_pushIndex m / d_capacity m) in *.
  destruct (constants_ok_bounds m Hok) as (Hc & Hmax & Hci & Hb).
  assert (Hg : 0 <= g <= d_maxGeneration m).
  { split; [apply Z.div_pos; lia|].
    apply Z.lt_succ_r, Z.div_lt_upper_bound; nia. }
  destruct (one_generation_behind m g g' Hok Hg Hcase) as (Ht & Hcd & Hg' & Hne).
  assert (Hmiss : encodeElementState g' s <> encodeElementState g e_EMPTY).
  { intros Heq. apply (f_equal decodeGenerationFromElementState) in Heq.
    rewrite !decodeGeneration_encode, !Z.mod_small in Heq by lia. congruence. }
  unfold reservePushIndex_step.
  rewrite isDisabledFlagSet_small, discardDisabledFlag_small by lia.
  fold g.
  rewrite (testAndSwap_state_miss _ _ _ _ _ Hs Hmiss).
  destruct (Z.eqb_spec (encodeElementState g e_EMPTY) (encodeElementState g' s));
    [congruence|].
  rewrite decodeGeneration_encode, (Z.mod_small g') by lia.
  rewrite Ht, Hcd, decodeState_encode.
  by destruct s.
Qed.

(** X13: on an enabled queue, when the element under the push cursor is one
    generation behind the cursor (the wrap from the largest generation to 0
    included, for a largest generation of at least 2) and is not being read,
    [reservePushIndex] returns [e_QUEUE_FULL] and changes nothing. *)
Theorem reservePushIndex_queue_full
    (m : manager) (g' : Z) (s : ElementState) (fuel : nat) :
  constants_ok m ->
  0 <= d_pushIndex m <= d_maxCombinedIndex m ->
  d_states m !! Z.to_nat (d_pushIndex m mod d_capacity m)
  = Some (encodeElementState g' s) ->
  (1 <= d_pushIndex m / d_capacity m /\ g' = d_pushIndex m / d_capacity m - 1)
  \/ (d_pushIndex m / d_capacity m = 0 /\ g' = d_maxGeneration m
      /\ 2 <= d_maxGeneration m) ->
  s <> e_READING ->
  reservePushIndex (S (S fuel)) m = Some (Returned (Refused e_QUEUE_FULL), m).
Proof.
  intros Hok Hp Hs Hcase Hr.
  unfold reservePushIndex.
  rewrite run_step by reflexivity.
  change (reservePushIndex_step m PushLoad) with (m, PushLoop (d_pushIndex m)).
  cbn [fst snd].
  rewrite run_step, (reservePushIndex_behind_step m g' s) by (assumption || reflexivity).
  cbn [fst snd]. destruct s; try contradiction; by apply run_final.
Qed.

Lemma reservePushIndex_queue_full_witness :
  reservePushIndex 2 (Manager 0 0 4 536870911 2147483647
                              [2147483646; 2147483646; 2147483646; 2147483646])
  = Some (Returned (Refused e_QUEUE_FULL),
          Manager 0 0 4 536870911 2147483647
                  [2147483646; 2147483646; 2147483646; 2147483646]).
Proof.
  apply (reservePushIndex_queue_full
           (Manager 0 0 4 536870911 2147483647
                    [2147483646; 2147483646; 2147483646; 2147483646])
           536870911 e_FULL 0).
  - by_evaluation.
  - vm_compute. split; discriminate.
  - vm_compute. reflexivity.
  - right. by_evaluation.
  - discriminate.
Defined.

(** A loop of a call whose transitions come back to where they were, with
    the manager unchanged, does not return on any fuel. *)
Lemma run_cycle {pc R : Type} (step : manager -> pc -> manager * pc)
    (final : pc -> option (outcome R)) m p q :
  final p = None -> final q = None ->
  step m p = (m, q) -> step m q = (m, p) ->
  forall fuel, run step final fuel m p = None /\ run step final fuel m q = None.
Proof.
  intros Hp Hq Hpq Hqp. induction fuel as [|fuel [IHp IHq]].
  - simpl. by rewrite Hp, Hq.
  - rewrite !run_step, Hpq, Hqp by assumption. auto.
Qed.

(** [run] gives no result on a fuel exactly when none of the control points
    that [steps] reaches within that many transitions is final. *)
Lemma run_None_iff {pc R : Type} (step : manager -> pc -> manager * pc)
    (final : pc -> option (outcome R)) fuel :
  forall m p,
    run step final fuel m p = None
    <-> forall k, (k <= fuel)%nat -> final (steps step k m p).2 = None.
Proof.
  induction fuel as [|fuel IH]; intros m p; simpl.
  - split.
    + intros H k Hk. replace k with O by lia. simpl.
      by destruct (final p).
    + intros H. specialize (H O (Nat.le_refl _)). simpl in H. by rewrite H.
  - split.
    + intros H k Hk. destruct (final p) eqn:Hf; [discriminate|].
      destruct k as [|k]; [exact Hf|]. simpl.
      destruct (step m p) as [m' p']. apply IH; [exact H|lia].
    + intros H. pose proof (H O ltac:(lia)) as H0. simpl in H0. rewrite H0.
      destruct (step m p) as [m' p'] eqn:Hs. apply IH.
      intros k Hk. specialize (H (S k) ltac:(lia)). simpl in H.
      by rewrite Hs in H.
Qed.

(** In such a loop the manager is the same after any number of transitions,
    and the call is at one of the two control points of the loop. *)
Lemma steps_cycle {pc : Type} (step : manager -> pc -> manager * pc) m p q :
  step m p = (m, q) -> step m q = (m, p) ->
  forall n,
    (steps step n m p = (m, p) \/ steps step n m p = (m, q))
    /\ (steps step n m q = (m, p) \/ steps step n m q = (m, q)).
Proof.
  intros Hpq Hqp. induction n as [|n [IHp IHq]]; simpl.
  - auto.
  - rewrite Hpq, Hqp. auto.
Qed.

(** X14: used by one thread, [reservePushIndex] does not return while the
    element under the push cursor, one generation behind the cursor, is
    being read: it yields and reloads for as long as it is given fuel, and
    changes nothing.  After any number of transitions the manager is exactly
    as it was and the call is at its first load, at the top of its loop with
    the same loaded word, or at the reload after the yield. *)
Theorem reservePushIndex_waits_for_reader (m : manager) (g' : Z) :
  constants_ok m ->
  0 <= d_pushIndex m <= d_maxCombinedIndex m ->
  d_states m !! Z.to_nat (d_pushIndex m mod d_capacity m)
  = Some (encodeElementState g' e_READING) ->
  (1 <= d_pushIndex m / d_capacity m /\ g' = d_pushIndex m / d_capacity m - 1)
  \/ (d_pushIndex m / d_capacity m = 0 /\ g' = d_maxGeneration m
      /\ 2 <= d_maxGeneration m) ->
  forall n,
    reservePushIndex n m = None
    /\ exists p,
         steps reservePushIndex_step n m PushLoad = (m, p)
         /\ (p = PushLoad \/ p = PushLoop (d_pushIndex m) \/ p = PushReload).
Proof.
  intros Hok Hp Hs Hcase n.
  pose proof (reservePushIndex_behind_step m g' e_READING Hok Hp Hs Hcase) as E.
  split.
  - destruct (run_cycle reservePushIndex_step push_final m
                (PushLoop (d_pushIndex m)) PushReload
                eq_refl eq_refl E eq_refl (Nat.pred n)) as [Hloop _].
    unfold reservePushIndex. destruct n as [|n]; [reflexivity|].
    rewrite run_step by reflexivity. exact Hloop.
  - destruct n as [|n]; [exists PushLoad; by auto|].
    destruct (steps_cycle reservePushIndex_step m
                (PushLoop (d_pushIndex m)) PushReload E eq_refl n) as [Hloop _].
    change (steps reservePushIndex_step (S n) m PushLoad)
      with (steps reservePushIndex_step n m (PushLoop (d_pushIndex m))).
    destruct Hloop as [-> | ->]; eexists; eauto.
Qed.

Lemma reservePushIndex_waits_for_reader_witness :
  reservePushIndex 1000 (Manager 4 1 4 536870911 2147483647 [3; 2; 2; 2]) = None
  /\ exists p,
       steps reservePushIndex_step 1000
             (Manager 4 1 4 536870911 2147483647 [3; 2; 2; 2]) PushLoad
       = (Manager 4 1 4 536870911 2147483647 [3; 2; 2; 2], p)
       /\ (p = PushLoad
           \/ p = PushLoop (d_pushIndex (Manager 4 1 4 536870911 2147483647 [3; 2; 2; 2]))
           \/ p = PushReload).
Proof.
  apply (reservePushIndex_waits_for_reader
           (Manager 4 1 4 536870911 2147483647 [3; 2; 2; 2]) 0).
  - by_evaluation.
  - vm_compute. split; discriminate.
  - vm_compute. reflexivity.
  - left. by_evaluation.
Defined.

(** X15: used by one thread, [reservePopIndex] does not return while the
    element under the pop cursor is being written at the cursor's
    generation: it yields and reloads for as long as it is given fuel, and
    changes nothing.  After any number of transitions the manager is exactly
    as it was and the call is at its first load, at the top of its loop with
    the same loaded word, or at the reload after the yield. *)
Theorem reservePopIndex_waits_for_writer (m : manager) :
  0 <= d_popIndex m / d_capacity m < 2 ^ 30 ->
  d_states m !! Z.to_nat (d_popIndex m mod d_capacity m)
  = Some (encodeElementState (d_popIndex m / d_capacity m) e_WRITING) ->
  forall n,
    reservePopIndex n m = None
    /\ exists p,
         steps reservePopIndex_step n m PopLoad = (m, p)
         /\ (p = PopLoad \/ p = PopLoop (d_popIndex m) \/ p = PopReload).
Proof.
  intros Hg Hs n.
  set (g := d_popIndex m / d_capacity m) in *.
  assert (Hne : encodeElementState g e_WRITING <> encodeElementState g e_FULL).
  { intros Heq. apply (f_equal decodeStateFromElementState) in Heq.
    rewrite !decodeState_encode in Heq. discriminate. }
  assert (E : reservePopIndex_step m (PopLoop (d_popIndex m)) = (m, PopReload)).
  { unfold reservePopIndex_step. fold g.
    rewrite (testAndSwap_state_miss _ _ _ _ _ Hs Hne).
    destruct (Z.eqb_spec (encodeElementState g e_FULL) (encodeElementState g e_WRITING));
      [congruence|].
    rewrite decodeGeneration_encode, (Z.mod_small g), Z.eqb_refl by assumption.
    by rewrite decodeState_encode. }
  split.
  - destruct (run_cycle reservePopIndex_step pop_final m
                (PopLoop (d_popIndex m)) PopReload
                eq_refl eq_refl E eq_refl (Nat.pred n)) as [Hloop _].
    unfold reservePopIndex. destruct n as [|n]; [reflexivity|].
    rewrite run_step by reflexivity. exact Hloop.
  - destruct n as [|n]; [exists PopLoad; by auto|].
    destruct (steps_cycle reservePopIndex_step m
                (PopLoop (d_popIndex m)) PopReload E eq_refl n) as [Hloop _].
    change (steps reservePopIndex_step (S n) m PopLoad)
      with (steps reservePopIndex_step n m (PopLoop (d_popIndex m))).
    destruct Hloop as [-> | ->]; eexists; eauto.
Qed.

Lemma reservePopIndex_waits_for_writer_witness :
  reservePopIndex 1000 (Manager 1 0 4 536870911 2147483647 [1; 0; 0; 0]) = None
  /\ exists p,
       steps reservePopIndex_step 1000
             (Manager 1 0 4 536870911 2147483647 [1; 0; 0; 0]) PopLoad
       = (Manager 1 0 4 536870911 2147483647 [1; 0; 0; 0], p)
       /\ (p = PopLoad
           \/ p = PopLoop (d_popIndex (Manager 1 0 4 536870911 2147483647 [1; 0; 0; 0]))
           \/ p = PopReload).
Proof.
  apply (reservePopIndex_waits_for_writer
           (Manager 1 0 4 536870911 2147483647 [1; 0; 0; 0])).
  - vm_compute. split; [discriminate|reflexivity].
  - vm_compute. reflexivity.
Defined.

(** X16: with only two generations (a largest generation of 1, which the
    constructor derives only for capacities above a third of 2^31), a full
    queue whose push cursor has wrapped to generation 0 while the element
    under it is of generation 1 makes [reservePushIndex] stop at its
    assertion on the circular difference, which is -1 there and not 1,
    instead of returning [e_QUEUE_FULL]. *)
Theorem reservePushIndex_two_generations_wrap
    (m : manager) (s : ElementState) (fuel : nat) :
  constants_ok m ->
  d_maxGeneration m = 1 ->
  0 <= d_pushIndex m < d_capacity m ->
  d_states m !! Z.to_nat (d_pushIndex m) = Some (encodeElementState 1 s) ->
  2 ^ 31 < 3 * d_capacity m
  /\ circularDifference 0 1 (wrap32 (d_maxGeneration m + 1)) = Some (-1)
  /\ reservePushIndex (S (S fuel)) m = Some (AssertionFailed, m).
Proof.
  intros Hok Hmax Hp Hs.
  destruct (constants_ok_bounds m Hok) as (Hc & _ & Hci & Hb).
  split.
  { destruct Hok as (_ & Hg & _). rewrite Hmax in Hg.
    unfold numRepresentableGenerations,
      e_NUM_REPRESENTABLE_COMBINED_INDICES, e_DISABLED_STATE_MASK,
      e_NUM_REPRESENTABLE_ELEMENT_STATE_GENERATIONS in Hg.
    change (Z.shiftl 1 (4 * 8 - 2)) with (2 ^ 30) in Hg.
    change (Z.shiftl 1 (4 * 8 - 1)) with (2 ^ 31) in Hg.
    pose proof (Z.mul_succ_div_gt (2 ^ 31) (d_capacity m) ltac:(lia)).
    lia. }
  assert (Hcd : circularDifference 0 1 (wrap32 (d_maxGeneration m + 1)) = Some (-1))
    by (rewrite Hmax; reflexivity).
  split; [assumption|].
  assert (Hne : encodeElementState 1 s <> encodeElementState 0 e_EMPTY).
  { intros Heq. apply (f_equal decodeGenerationFromElementState) in Heq.
    rewrite !decodeGeneration_encode in Heq. discriminate. }
  assert (E : reservePushIndex_step m (PushLoop (d_pushIndex m)) = (m, PushAbort)).
  { unfold reservePushIndex_step.
    rewrite isDisabledFlagSet_small, discardDisabledFlag_small by lia.
    rewrite Z.div_small, Z.mod_small by lia.
    rewrite (testAndSwap_state_miss _ _ _ _ _ Hs Hne).
    destruct (Z.eqb_spec (encodeElementState 0 e_EMPTY) (encodeElementState 1 s));
      [congruence|].
    rewrite decodeGeneration_encode. change (1 mod 2 ^ 30) with 1.
    rewrite Hcd, Hmax. reflexivity. }
  unfold reservePushIndex.
  rewrite run_step by reflexivity.
  change (reservePushIndex_step m PushLoad) with (m, PushLoop (d_pushIndex m)).
  cbn [fst snd].
  rewrite run_step, E by reflexivity. by apply run_final.
Qed.

Lemma reservePushIndex_two_generations_wrap_witness :
  2 ^ 31 < 3 * d_capacity (Manager 0 0 (2 ^ 30) 1 (2 ^ 31 - 1)
                                   (replicate (Z.to_nat (2 ^ 30)) 6))
  /\ circularDifference 0 1
    (wrap32 (d_maxGeneration
               (Manager 0 0 (2 ^ 30) 1 (2 ^ 31 - 1)
                        (replicate (Z.to_nat (2 ^ 30)) 6)) + 1))
  = Some (-1)
  /\ reservePushIndex 2 (Manager 0 0 (2 ^ 30) 1 (2 ^ 31 - 1)
                                 (replicate (Z.to_nat (2 ^ 30)) 6))
     = Some (AssertionFailed,
             Manager 0 0 (2 ^ 30) 1 (2 ^ 31 - 1) (replicate (Z.to_nat (2 ^ 30)) 6)).
Proof.
  apply (reservePushIndex_two_generations_wrap
           (Manager 0 0 (2 ^ 30) 1 (2 ^ 31 - 1) (replicate (Z.to_nat (2 ^ 30)) 6))
           e_FULL 0).
  - unfold constants_ok. cbn [d_capacity d_maxGeneration d_maxCombinedIndex].
    change e_MAX_CAPACITY with (2 ^ 30).
    change (numRepresentableGenerations (2 ^ 30)) with 2.
    lia.
  - reflexivity.
  - cbn [d_capacity d_pushIndex]. lia.
  - cbn [d_states d_pushIndex]. apply lookup_replicate_2. lia.
Defined.

(** ** One element pushed, one element popped *)

Lemma index_generation_range m combinedIndex :
  constants_ok m ->
  0 <= combinedIndex <= d_maxCombinedIndex m ->
  0 <= combinedIndex / d_capacity m <= d_maxGeneration m
  /\ 0 <= combinedIndex mod d_capacity m < d_capacity m.
Proof.
  intros Hok Hci.
  destruct (constants_ok_bounds m Hok) as (Hc & Hg & Hmax & Hb).
  split; [|apply Z.mod_pos_bound; lia].
  split; [apply Z.div_pos; lia|].
  apply Z.lt_succ_r, Z.div_lt_upper_bound; nia.
Qed.

Lemma pushOne_run m fuel :
  constants_ok m ->
  0 <= d_pushIndex m <= d_maxCombinedIndex m ->
  d_states m !! Z.to_nat (d_pushIndex m mod d_capacity m)
  = Some (encodeElementState (d_pushIndex m / d_capacity m) e_EMPTY) ->
  pushOne (S (S (S fuel))) m =
  Some (Returned (Reserved (d_pushIndex m / d_capacity m)
                           (d_pushIndex m mod d_capacity m)),
        set_pushIndex
          (set_states m
             (<[Z.to_nat (d_pushIndex m mod d_capacity m) :=
                  encodeElementState (d_pushIndex m / d_capacity m) e_FULL]>
                (d_states m)))
          (nextCombinedIndex m (d_pushIndex m))).
Proof.
  intros Hok Hp Hs.
  destruct (constants_ok_bounds m Hok) as (Hc & Hg & Hmax & Hb).
  destruct (index_generation_range m _ Hok Hp) as [Hgen Hidx].
  unfold pushOne, reserve_then_commit.
  rewrite reservePushIndex_hit by (assumption || lia).
  unfold commitPushIndex, commitPushIndex_step.
  rewrite (commit_run e_WRITING); simpl; try lia.
  - by rewrite list_insert_insert_eq.
  - apply list_lookup_insert_eq. eapply lookup_lt_Some, Hs.
Qed.

Lemma popOne_run m fuel :
  constants_ok m ->
  0 <= d_popIndex m <= d_maxCombinedIndex m ->
  d_states m !! Z.to_nat (d_popIndex m mod d_capacity m)
  = Some (encodeElementState (d_popIndex m / d_capacity m) e_FULL) ->
  popOne (S (S (S fuel))) m =
  Some (Returned (Reserved (d_popIndex m / d_capacity m)
                           (d_popIndex m mod d_capacity m)),
        set_popIndex
          (set_states m
             (<[Z.to_nat (d_popIndex m mod d_capacity m) :=
                  encodeElementState
                    (nextGeneration m (d_popIndex m / d_capacity m)) e_EMPTY]>
                (d_states m)))
          (nextCombinedIndex m (d_popIndex m))).
Proof.
  intros Hok Hp Hs.
  destruct (constants_ok_bounds m Hok) as (Hc & Hg & Hmax & Hb).
  destruct (index_generation_range m _ Hok Hp) as [Hgen Hidx].
  unfold popOne, reserve_then_commit.
  rewrite reservePopIndex_hit by assumption.
  unfold commitPopIndex, commitPopIndex_step.
  rewrite (commit_run e_READING); simpl; try lia.
  - by rewrite list_insert_insert_eq.
  - apply list_lookup_insert_eq. eapply lookup_lt_Some, Hs.
Qed.

(** X17: with both cursors at the same combined index and the element under
    them [e_EMPTY] at their generation, a push followed by a pop hands the
    consumer the generation and index the producer was given; afterwards
    both cursors are at the next combined index, the element is [e_EMPTY] at
    the next generation, and the other elements, the constants and the size
    of the array are as before. *)
Theorem push_then_pop_round_trip (m : manager) (fuel : nat) :
  constants_ok m ->
  0 <= d_pushIndex m <= d_maxCombinedIndex m ->
  d_popIndex m = d_pushIndex m ->
  d_states m !! Z.to_nat (d_pushIndex m mod d_capacity m)
  = Some (encodeElementState (d_pushIndex m / d_capacity m) e_EMPTY) ->
  let generation := d_pushIndex m / d_capacity m in
  let index := d_pushIndex m mod d_capacity m in
  exists m1 m2,
    pushOne (S (S (S fuel))) m = Some (Returned (Reserved generation index), m1)
    /\ popOne (S (S (S fuel))) m1 = Some (Returned (Reserved generation index), m2)
    /\ d_pushIndex m2 = nextCombinedIndex m (d_pushIndex m)
    /\ d_popIndex m2 = nextCombinedIndex m (d_pushIndex m)
    /\ d_states m2 !! Z.to_nat index
       = Some (encodeElementState (nextGeneration m generation) e_EMPTY)
    /\ (forall j : nat, j <> Z.to_nat index -> d_states m2 !! j = d_states m !! j)
    /\ frame m2 = frame m.
Proof.
  intros Hok Hp Hpop Hs g i.
  assert (Hlt : (Z.to_nat i < List.length (d_states m))%nat)
    by (eapply lookup_lt_Some, Hs).
  exists (set_pushIndex
            (set_states m (<[Z.to_nat i := encodeElementState g e_FULL]> (d_states m)))
            (nextCombinedIndex m (d_pushIndex m))).
  exists (Manager (nextCombinedIndex m (d_pushIndex m))
                  (nextCombinedIndex m (d_pushIndex m))
                  (d_capacity m) (d_maxGeneration m) (d_maxCombinedIndex m)
                  (<[Z.to_nat i := encodeElementState (nextGeneration m g) e_EMPTY]>
                     (d_states m))).
  split; [by apply pushOne_run|].
  split.
  - rewrite popOne_run; simpl; rewrite ?Hpop; try assumption.
    + fold g i. by rewrite list_insert_insert_eq.
    + by apply list_lookup_insert_eq.
  - simpl.
    split; [reflexivity|]. split; [reflexivity|].
    split; [by apply list_lookup_insert_eq|].
    split; [intros j Hj; by apply list_lookup_insert_ne|].
    unfold frame. simpl. by rewrite length_insert.
Qed.

Lemma push_then_pop_round_trip_witness :
  exists m1 m2,
    pushOne 3 (Manager 5 5 4 536870911 2147483647 [8; 4; 4; 4])
    = Some (Returned (Reserved 1 1), m1)
    /\ popOne 3 m1 = Some (Returned (Reserved 1 1), m2)
    /\ d_pushIndex m2 = 6
    /\ d_popIndex m2 = 6
    /\ d_states m2 !! 1%nat = Some (encodeElementState 2 e_EMPTY).
Proof.
  destruct (push_then_pop_round_trip
              (Manager 5 5 4 536870911 2147483647 [8; 4; 4; 4]) 0)
    as (m1 & m2 & H1 & H2 & H3 & H4 & H5 & _).
  - by_evaluation.
  - vm_compute. split; discriminate.
  - reflexivity.
  - vm_compute. reflexivity.
  - exists m1, m2. repeat split; assumption.
Defined.

(** ** abortPushIndexReservation *)

Lemma abortPushIndexReservation_run m generation index fuel :
  constants_ok m ->
  0 <= generation <= d_maxGeneration m ->
  0 <= index < d_capacity m ->
  d_popIndex m = generation * d_capacity m + index ->
  d_states m !! Z.to_nat index = Some (encodeElementState generation e_WRITING) ->
  abortPushIndexReservation (S (S (S (S (S (S fuel)))))) m generation index =
  Some (Returned tt,
        set_states (set_popIndex m (nextCombinedIndex m (d_popIndex m)))
          (<[Z.to_nat index :=
               encodeElementState (nextGeneration m generation) e_EMPTY]>
             (d_states m))).
Proof.
  intros Hok Hg Hi Hpop Hs.
  destruct (constants_ok_bounds m Hok) as (Hc & Hgm & Hmax & Hb).
  set (m1 := set_popIndex m (nextCombinedIndex m (d_popIndex m))).
  assert (E1 : abortPushIndexReservation_step m (AbortEnter generation index)
               = (m, AbortCheckState generation index)).
  { unfold abortPushIndexReservation_step.
    destruct (Z.leb_spec generation (d_maxGeneration m)); [|lia].
    destruct (Z.ltb_spec index (d_capacity m)); [|lia].
    rewrite wrap32_add_l, wrap32_small, Hpop, Z.eqb_refl by nia. reflexivity. }
  assert (E2 : abortPushIndexReservation_step m (AbortCheckState generation index)
               = (m, AbortCheckGeneration generation index)).
  { unfold abortPushIndexReservation_step, load_state.
    rewrite Hs, decodeState_encode.
    by destruct (decide (e_WRITING = e_WRITING)). }
  assert (E3 : abortPushIndexReservation_step m (AbortCheckGeneration generation index)
               = (m, AbortLoad generation index)).
  { unfold abortPushIndexReservation_step, load_state.
    rewrite Hs, decodeGeneration_encode, (Z.mod_small generation), Z.eqb_refl by lia.
    reflexivity. }
  assert (E5 : abortPushIndexReservation_step m
                 (AbortSwap generation index (d_popIndex m))
               = (m1, AbortStore generation index)).
  { unfold abortPushIndexReservation_step, testAndSwap_popIndex.
    by rewrite Z.eqb_refl. }
  assert (E6 : abortPushIndexReservation_step m1 (AbortStore generation index)
               = (set_states m1
                    (<[Z.to_nat index :=
                         encodeElementState (nextGeneration m generation) e_EMPTY]>
                       (d_states m)),
                  AbortRet)).
  { unfold abortPushIndexReservation_step, store_state.
    change (d_states m1) with (d_states m). by rewrite Hs. }
  unfold abortPushIndexReservation.
  rewrite run_step, E1 by reflexivity. cbn [fst snd].
  rewrite run_step, E2 by reflexivity. cbn [fst snd].
  rewrite run_step, E3 by reflexivity. cbn [fst snd].
  rewrite run_step by reflexivity.
  change (abortPushIndexReservation_step m (AbortLoad generation index))
    with (m, AbortSwap generation index (d_popIndex m)).
  cbn [fst snd].
  rewrite run_step, E5 by reflexivity. cbn [fst snd].
  rewrite run_step, E6 by reflexivity. cbn [fst snd].
  by apply run_final.
Qed.

(** X18: for the holder of the push reservation under the pop cursor,
    [abortPushIndexReservation] leaves the manager exactly as committing the
    push and then popping that element leaves it: the pop cursor one
    further, the element [e_EMPTY] at the next generation. *)
Theorem abortPushIndexReservation_as_commit_then_pop
    (m : manager) (generation index : Z) (fuel : nat) :
  constants_ok m ->
  0 <= generation <= d_maxGeneration m ->
  0 <= index < d_capacity m ->
  d_popIndex m = generation * d_capacity m + index ->
  d_states m !! Z.to_nat index = Some (encodeElementState generation e_WRITING) ->
  exists m1 m',
    commitPushIndex (S (S (S fuel))) m generation index = Some (Returned tt, m1)
    /\ popOne (S (S (S fuel))) m1 = Some (Returned (Reserved generation index), m')
    /\ abortPushIndexReservation (S (S (S (S (S (S fuel)))))) m generation index
       = Some (Returned tt, m')
    /\ d_popIndex m' = nextCombinedIndex m (d_popIndex m)
    /\ d_states m' !! Z.to_nat index
       = Some (encodeElementState (nextGeneration m generation) e_EMPTY).
Proof.
  intros Hok Hg Hi Hpop Hs.
  destruct (constants_ok_bounds m Hok) as (Hc & Hgm & Hmax & Hb).
  assert (Hdiv : d_popIndex m / d_capacity m = generation)
    by (rewrite Hpop; symmetry; apply (Z.div_unique _ _ _ index); lia).
  assert (Hmod : d_popIndex m mod d_capacity m = index)
    by (rewrite Hpop; symmetry; apply (Z.mod_unique _ _ generation); lia).
  assert (Hlt : (Z.to_nat index < List.length (d_states m))%nat)
    by (eapply lookup_lt_Some, Hs).
  exists (set_states m
            (<[Z.to_nat index := encodeElementState generation e_FULL]> (d_states m))).
  exists (set_states (set_popIndex m (nextCombinedIndex m (d_popIndex m)))
            (<[Z.to_nat index :=
                 encodeElementState (nextGeneration m generation) e_EMPTY]>
               (d_states m))).
  split.
  { unfold commitPushIndex, commitPushIndex_step.
    apply (commit_run e_WRITING); (assumption || lia). }
  split.
  { rewrite popOne_run; simpl; rewrite ?Hdiv, ?Hmod; try assumption.
    - by rewrite list_insert_insert_eq.
    - nia.
    - by apply list_lookup_insert_eq. }
  split; [by apply abortPushIndexReservation_run|].
  simpl. split; [reflexivity|]. by apply list_lookup_insert_eq.
Qed.

Lemma abortPushIndexReservation_as_commit_then_pop_witness :
  exists m1 m',
    commitPushIndex 3 (Manager 6 5 4 536870911 2147483647 [8; 5; 4; 4]) 1 1
    = Some (Returned tt, m1)
    /\ popOne 3 m1 = Some (Returned (Reserved 1 1), m')
    /\ abortPushIndexReservation 6
         (Manager 6 5 4 536870911 2147483647 [8; 5; 4; 4]) 1 1
       = Some (Returned tt, m')
    /\ d_popIndex m' = 6
    /\ d_states m' !! 1%nat = Some (encodeElementState 2 e_EMPTY).
Proof.
  destruct (abortPushIndexReservation_as_commit_then_pop
              (Manager 6 5 4 536870911 2147483647 [8; 5; 4; 4]) 1 1 0)
    as (m1 & m' & H1 & H2 & H3 & H4 & H5).
  - by_evaluation.
  - vm_compute. split; discriminate.
  - vm_compute. split; [discriminate|reflexivity].
  - reflexivity.
  - vm_compute. reflexivity.
  - exists m1, m'. repeat split; assumption.
Defined.

(** ** clearPopIndex, continued *)

(** X19: for a constructed manager, an end boundary within the asserted
    ranges and a pop cursor up to [d_maxCombinedIndex], the difference that
    [clearPopIndex] tests is never negative, and it is 0 (the only way the
    test returns [e_FAILURE]) exactly when the boundary is the cursor itself
    and the cursor is not both within one capacity of [d_maxCombinedIndex]
    and below the capacity. *)
Theorem clearPopIndex_difference_zero_iff
    (m : manager) (endGeneration endIndex loaded : Z) :
  constants_ok m ->
  0 <= endGeneration <= d_maxGeneration m ->
  0 <= endIndex < d_capacity m ->
  0 <= loaded <= d_maxCombinedIndex m ->
  0 <= clearPopIndex_difference m endGeneration endIndex loaded
  /\ (clearPopIndex_difference m endGeneration endIndex loaded <= 0
      <-> endGeneration * d_capacity m + endIndex = loaded
          /\ (loaded < d_maxCombinedIndex m - d_capacity m
              \/ d_capacity m <= loaded)).
Proof.
  intros Hok Hg Hi Hl.
  destruct (constants_ok_bounds m Hok) as (Hc & Hgm & Hmax & Hb).
  split; [apply clearPopIndex_difference_nonneg|].
  unfold clearPopIndex_difference.
  rewrite wrap32_add_l.
  set (e := endGeneration * d_capacity m + endIndex).
  assert (He : 0 <= e <= d_maxCombinedIndex m) by (unfold e; nia).
  rewrite (wrap32_small e) by lia.
  rewrite (wrap32_small (d_maxCombinedIndex m - d_capacity m)) by lia.
  rewrite (wrap32_small (d_maxCombinedIndex m + 1)) by lia.
  assert (Hd : wrap32 (e - loaded)
               = if e <? loaded then e - loaded + 2 ^ 32 else e - loaded).
  { destruct (Z.ltb_spec e loaded);
      [apply wrap32_neg|apply wrap32_small]; lia. }
  rewrite Hd.
  destruct (Z.ltb_spec e loaded);
    destruct (Z.leb_spec (d_maxCombinedIndex m - d_capacity m) loaded);
    destruct (Z.ltb_spec e (d_capacity m)); simpl; lia.
Qed.

Lemma clearPopIndex_difference_zero_iff_witness :
  0 <= clearPopIndex_difference
         (Manager 6 5 4 536870911 2147483647 [8; 6; 4; 4]) 1 1 5
  /\ (clearPopIndex_difference
        (Manager 6 5 4 536870911 2147483647 [8; 6; 4; 4]) 1 1 5 <= 0
      <-> 1 * d_capacity (Manager 6 5 4 536870911 2147483647 [8; 6; 4; 4]) + 1 = 5
          /\ (5 < d_maxCombinedIndex (Manager 6 5 4 536870911 2147483647 [8; 6; 4; 4])
                  - d_capacity (Manager 6 5 4 536870911 2147483647 [8; 6; 4; 4])
              \/ d_capacity (Manager 6 5 4 536870911 2147483647 [8; 6; 4; 4]) <= 5)).
Proof.
  apply (clearPopIndex_difference_zero_iff
           (Manager 6 5 4 536870911 2147483647 [8; 6; 4; 4]) 1 1 5).
  - by_evaluation.
  - vm_compute. split; discriminate.
  - vm_compute. split; [discriminate|reflexivity].
  - vm_compute. split; discriminate.
Defined.

Lemma clearPopIndex_run m endGeneration endIndex fuel :
  constants_ok m ->
  0 <= endGeneration <= d_maxGeneration m ->
  0 <= endIndex < d_capacity m ->
  0 < clearPopIndex_difference m endGeneration endIndex (d_popIndex m) ->
  d_states m !! Z.to_nat (d_popIndex m mod d_capacity m)
  = Some (encodeElementState (d_popIndex m / d_capacity m) e_FULL) ->
  clearPopIndex (S (S (S (S fuel)))) m endGeneration endIndex =
  Some (Returned (Reserved (d_popIndex m / d_capacity m)
                           (d_popIndex m mod d_capacity m)),
        set_states
          (set_popIndex m (nextCombinedIndex m (d_popIndex m)))
          (<[Z.to_nat (d_popIndex m mod d_capacity m) :=
               encodeElementState
                 (nextGeneration m (d_popIndex m / d_capacity m)) e_EMPTY]>
             (d_states m))).
Proof.
  intros Hok Hg Hi Hd Hs.
  set (g := d_popIndex m / d_capacity m) in *.
  set (i := d_popIndex m mod d_capacity m) in *.
  set (m1 := set_states m (<[Z.to_nat i := encodeElementState g e_READING]> (d_states m))).
  set (m2 := set_popIndex m1 (nextCombinedIndex m (d_popIndex m))).
  assert (Hlt : (Z.to_nat i < List.length (d_states m))%nat)
    by (eapply lookup_lt_Some, Hs).
  assert (E1 : clearPopIndex_step endGeneration endIndex m ClearLoad
               = (m, ClearLoop (d_popIndex m))).
  { unfold clearPopIndex_step.
    destruct (Z.leb_spec endGeneration (d_maxGeneration m)); [|lia].
    destruct (Z.ltb_spec endIndex (d_capacity m)); [|lia]. reflexivity. }
  assert (E2 : clearPopIndex_step endGeneration endIndex m (ClearLoop (d_popIndex m))
               = (m1, ClearFinish (d_popIndex m) g i)).
  { unfold clearPopIndex_step.
    destruct (Z.leb_spec (clearPopIndex_difference m endGeneration endIndex
                            (d_popIndex m)) 0); [lia|].
    fold g i. rewrite (testAndSwap_state_hit _ _ _ _ Hs), Z.eqb_refl.
    reflexivity. }
  assert (E3 : clearPopIndex_step endGeneration endIndex m1
                 (ClearFinish (d_popIndex m) g i)
               = (m2, ClearStore g i)).
  { unfold clearPopIndex_step, testAndSwap_popIndex.
    change (d_popIndex m1) with (d_popIndex m). by rewrite Z.eqb_refl. }
  assert (E4 : clearPopIndex_step endGeneration endIndex m2 (ClearStore g i)
               = (set_states m2
                    (<[Z.to_nat i := encodeElementState (nextGeneration m g) e_EMPTY]>
                       (d_states m2)),
                  ClearRet (Reserved g i))).
  { unfold clearPopIndex_step, store_state.
    assert (Hl : d_states m2 !! Z.to_nat i
                 = Some (encodeElementState g e_READING))
      by (simpl; by apply list_lookup_insert_eq).
    by rewrite Hl. }
  unfold clearPopIndex.
  rewrite run_step, E1 by reflexivity. cbn [fst snd].
  rewrite run_step, E2 by reflexivity. cbn [fst snd].
  rewrite run_step, E3 by reflexivity. cbn [fst snd].
  rewrite run_step, E4 by reflexivity. cbn [fst snd].
  rewrite (run_final _ _ _ _ _ (Returned (Reserved g i))) by reflexivity.
  simpl. by rewrite list_insert_insert_eq.
Qed.

(** X20: when the difference tested is positive and the element under the
    pop cursor is [e_FULL] at the cursor's generation, [clearPopIndex]
    returns the same generation and index and leaves the same manager as
    [reservePopIndex] followed by [commitPopIndex]. *)
Theorem clearPopIndex_as_pop
    (m : manager) (endGeneration endIndex : Z) (fuel : nat) :
  constants_ok m ->
  0 <= endGeneration <= d_maxGeneration m ->
  0 <= endIndex < d_capacity m ->
  0 <= d_popIndex m <= d_maxCombinedIndex m ->
  0 < clearPopIndex_difference m endGeneration endIndex (d_popIndex m) ->
  d_states m !! Z.to_nat (d_popIndex m mod d_capacity m)
  = Some (encodeElementState (d_popIndex m / d_capacity m) e_FULL) ->
  exists m',
    clearPopIndex (S (S (S (S fuel)))) m endGeneration endIndex
    = Some (Returned (Reserved (d_popIndex m / d_capacity m)
                               (d_popIndex m mod d_capacity m)), m')
    /\ popOne (S (S (S fuel))) m
       = Some (Returned (Reserved (d_popIndex m / d_capacity m)
                                  (d_popIndex m mod d_capacity m)), m')
    /\ d_popIndex m' = nextCombinedIndex m (d_popIndex m)
    /\ d_states m' !! Z.to_nat (d_popIndex m mod d_capacity m)
       = Some (encodeElementState
                 (nextGeneration m (d_popIndex m / d_capacity m)) e_EMPTY).
Proof.
  intros Hok Hg Hi Hp Hd Hs.
  eexists. split; [by apply clearPopIndex_run|].
  split; [by rewrite popOne_run|].
  simpl. split; [reflexivity|].
  apply list_lookup_insert_eq. eapply lookup_lt_Some, Hs.
Qed.

Lemma clearPopIndex_as_pop_witness :
  exists m',
    clearPopIndex 4 (Manager 6 5 4 536870911 2147483647 [8; 6; 4; 4]) 1 2
    = Some (Returned (Reserved 1 1), m')
    /\ popOne 3 (Manager 6 5 4 536870911 2147483647 [8; 6; 4; 4])
       = Some (Returned (Reserved 1 1), m')
    /\ d_popIndex m' = 6
    /\ d_states m' !! 1%nat = Some (encodeElementState 2 e_EMPTY).
Proof.
  destruct (clearPopIndex_as_pop
              (Manager 6 5 4 536870911 2147483647 [8; 6; 4; 4]) 1 2 0)
    as (m' & H1 & H2 & H3 & H4).
  - by_evaluation.
  - vm_compute. split; discriminate.
  - vm_compute. split; [discriminate|reflexivity].
  - vm_compute. split; discriminate.
  - vm_compute. reflexivity.
  - vm_compute. reflexivity.
  - exists m'. repeat split; assumption.
Defined.

(** ** length, continued *)

(** X21: [disable] and [enable] do not change what [length] returns. *)
Theorem length_ignores_disabled_flag (m : manager) (fuel : nat) :
  exists m1 m2,
    disable (S (S fuel)) m = Some (Returned tt, m1)
    /\ enable (S (S fuel)) m = Some (Returned tt, m2)
    /\ length m1 = length m
    /\ length m2 = length m.
Proof.
  eexists. eexists.
  split; [apply disable_run|]. split; [apply enable_run|].
  unfold length, lengthFrom.
  destruct (isDisabledFlagSet (d_pushIndex m)) eqn:E; simpl.
  - split; [reflexivity|].
    pose proof (discardDisabledFlag_range (d_pushIndex m)).
    by rewrite (discardDisabledFlag_small (discardDisabledFlag _)).
  - split; [|reflexivity]. by rewrite discardDisabledFlag_lor.
Qed.

(** X22: on an enabled queue in the steady state (the push index ahead of
    the pop index by less than the capacity, no wrap of the cursor pending),
    [length] returns the difference of the two indices, and after one more
    element is pushed it returns one more. *)
Theorem length_after_push (m : manager) (fuel : nat) :
  constants_ok m ->
  0 <= d_popIndex m <= d_pushIndex m ->
  d_pushIndex m < d_maxCombinedIndex m ->
  d_pushIndex m - d_popIndex m < d_capacity m ->
  d_states m !! Z.to_nat (d_pushIndex m mod d_capacity m)
  = Some (encodeElementState (d_pushIndex m / d_capacity m) e_EMPTY) ->
  length m = Some (d_pushIndex m - d_popIndex m)
  /\ exists m',
       pushOne (S (S (S fuel))) m
       = Some (Returned (Reserved (d_pushIndex m / d_capacity m)
                                  (d_pushIndex m mod d_capacity m)), m')
       /\ length m' = Some (d_pushIndex m - d_popIndex m + 1).
Proof.
  intros Hok Hp Hmax Hd Hs.
  destruct (constants_ok_bounds m Hok) as (Hc & Hg & Hci & Hb).
  assert (Hdisc : discardDisabledFlag (d_pushIndex m) = d_pushIndex m)
    by (apply discardDisabledFlag_small; lia).
  assert (Hn : nextCombinedIndex m (d_pushIndex m) = d_pushIndex m + 1)
    by (apply Z.mod_small; lia).
  assert (Hdisc' : discardDisabledFlag (d_pushIndex m + 1) = d_pushIndex m + 1)
    by (apply discardDisabledFlag_small; lia).
  split.
  - rewrite length_steady_state by (rewrite ?Hdisc; (assumption || lia)).
    by rewrite Hdisc.
  - eexists. split; [apply pushOne_run; (assumption || lia)|].
    rewrite length_steady_state; simpl; rewrite ?Hn, ?Hdisc';
      try (assumption || lia).
    f_equal. lia.
Qed.

Lemma length_after_push_witness :
  length (Manager 6 5 4 536870911 2147483647 [8; 6; 4; 4]) = Some (6 - 5)
  /\ exists m',
       pushOne 3 (Manager 6 5 4 536870911 2147483647 [8; 6; 4; 4])
       = Some (Returned (Reserved 1 2), m')
       /\ length m' = Some (6 - 5 + 1).
Proof.
  apply (length_after_push (Manager 6 5 4 536870911 2147483647 [8; 6; 4; 4]) 0).
  - by_evaluation.
  - vm_compute. split; discriminate.
  - vm_compute. reflexivity.
  - vm_compute. reflexivity.
  - vm_compute. reflexivity.
Defined.

(** X23: on an enabled queue in the steady state with at least one element
    (the push index ahead of the pop index by at least one and at most the
    capacity), after one element is popped [length] returns one less. *)
Theorem length_after_pop (m : manager) (fuel : nat) :
  constants_ok m ->
  0 <= d_popIndex m < d_pushIndex m ->
  d_pushIndex m <= d_maxCombinedIndex m ->
  d_pushIndex m - d_popIndex m <= d_capacity m ->
  d_states m !! Z.to_nat (d_popIndex m mod d_capacity m)
  = Some (encodeElementState (d_popIndex m / d_capacity m) e_FULL) ->
  length m = Some (d_pushIndex m - d_popIndex m)
  /\ exists m',
       popOne (S (S (S fuel))) m
       = Some (Returned (Reserved (d_popIndex m / d_capacity m)
                                  (d_popIndex m mod d_capacity m)), m')
       /\ length m' = Some (d_pushIndex m - d_popIndex m - 1).
Proof.
  intros Hok Hp Hmax Hd Hs.
  destruct (constants_ok_bounds m Hok) as (Hc & Hg & Hci & Hb).
  assert (Hdisc : discardDisabledFlag (d_pushIndex m) = d_pushIndex m)
    by (apply discardDisabledFlag_small; lia).
  assert (Hn : nextCombinedIndex m (d_popIndex m) = d_popIndex m + 1)
    by (apply Z.mod_small; lia).
  split.
  - rewrite length_steady_state by (rewrite ?Hdisc; (assumption || lia)).
    by rewrite Hdisc.
  - eexists. split; [apply popOne_run; (assumption || lia)|].
    rewrite length_steady_state; simpl; rewrite ?Hn, ?Hdisc;
      try (assumption || lia).
    f_equal. lia.
Qed.

Lemma length_after_pop_witness :
  length (Manager 6 5 4 536870911 2147483647 [8; 6; 4; 4]) = Some (6 - 5)
  /\ exists m',
       popOne 3 (Manager 6 5 4 536870911 2147483647 [8; 6; 4; 4])
       = Some (Returned (Reserved 1 1), m')
       /\ length m' = Some (6 - 5 - 1).
Proof.
  apply (length_after_pop (Manager 6 5 4 536870911 2147483647 [8; 6; 4; 4]) 0).
  - by_evaluation.
  - vm_compute. split; [discriminate|reflexivity].
  - vm_compute. discriminate.
  - vm_compute. discriminate.
  - vm_compute. reflexivity.
Defined.

(** ** What no transition touches *)

Lemma frame_testAndSwap_state m index c v w m' :
  testAndSwap_state m index c v = Some (w, m') -> frame m' = frame m.
Proof.
  unfold testAndSwap_state. intros H.
  destruct (d_states m !! Z.to_nat index); [|discriminate].
  injection H as <- <-.
  destruct (_ =? _); [apply frame_set_states_insert|reflexivity].
Qed.

Lemma frame_store_state m index v m' :
  store_state m index v = Some m' -> frame m' = frame m.
Proof.
  unfold store_state. intros H.
  destruct (d_states m !! Z.to_nat index); [|discriminate].
  injection H as <-. apply frame_set_states_insert.
Qed.

Lemma frame_testAndSwap_pushIndex m c v :
  frame (testAndSwap_pushIndex m c v).2 = frame m.
Proof. unfold testAndSwap_pushIndex. simpl. by destruct (_ =? _). Qed.

Lemma frame_testAndSwap_popIndex m c v :
  frame (testAndSwap_popIndex m c v).2 = frame m.
Proof. unfold testAndSwap_popIndex. simpl. by destruct (_ =? _). Qed.

Ltac frame_step :=
  simpl;
  repeat match goal with
    | |- context [testAndSwap_pushIndex ?m ?c ?v] =>
        let H := fresh in
        pose proof (frame_testAndSwap_pushIndex m c v) as H;
        destruct (testAndSwap_pushIndex m c v); simpl in H
    | |- context [testAndSwap_popIndex ?m ?c ?v] =>
        let H := fresh in
        pose proof (frame_testAndSwap_popIndex m c v) as H;
        destruct (testAndSwap_popIndex m c v); simpl in H
    end;
  repeat case_match; simplify_eq; simpl;
  eauto using frame_testAndSwap_state, frame_store_state.

Lemma frame_reservePushIndex_step m p :
  frame (reservePushIndex_step m p).1 = frame m.
Proof. destruct p; frame_step. Qed.

Lemma frame_reservePopIndex_step m p :
  frame (reservePopIndex_step m p).1 = frame m.
Proof. destruct p; frame_step. Qed.

Lemma frame_commit_step held stored m p :
  frame (commit_step held stored m p).1 = frame m.
Proof. destruct p; frame_step. Qed.

Lemma frame_clearPopIndex_step endGeneration endIndex m p :
  frame (clearPopIndex_step endGeneration endIndex m p).1 = frame m.
Proof. destruct p; frame_step. Qed.

Lemma frame_disable_step m p : frame (disable_step m p).1 = frame m.
Proof. destruct p; frame_step. Qed.

Lemma frame_enable_step m p : frame (enable_step m p).1 = frame m.
Proof. destruct p; frame_step. Qed.

Lemma frame_abortPushIndexReservation_step m p :
  frame (abortPushIndexReservation_step m p).1 = frame m.
Proof. destruct p; frame_step. Qed.

Lemma frame_thread_step m th m' th' :
  thread_step m th m' th' -> frame m' = frame m.
Proof.
  intros H. destruct H; try reflexivity;
    unfold commitPushIndex_step, commitPopIndex_step;
    auto using frame_reservePushIndex_step, frame_reservePopIndex_step,
      frame_commit_step, frame_clearPopIndex_step, frame_disable_step,
      frame_enable_step.
Qed.

Lemma frame_run {pc R : Type} (step : manager -> pc -> manager * pc)
    (final : pc -> option (outcome R)) :
  (forall m p, frame (step m p).1 = frame m) ->
  forall fuel m p o m',
    run step final fuel m p = Some (o, m') -> frame m' = frame m.
Proof.
  intros Hstep. induction fuel as [|fuel IH]; intros m p o m' H; simpl in H.
  - destruct (final p); [|discriminate]. by injection H as _ <-.
  - destruct (final p); [by injection H as _ <-|].
    specialize (Hstep m p). destruct (step m p) as [m1 p1].
    rewrite (IH _ _ _ _ H). exact Hstep.
Qed.

(** X24: no manipulator changes the capacity, the largest generation, the
    largest combined index or the number of elements: whatever a call
    returns, and also when it stops at an assertion, these are as they were
    before the call. *)
Theorem manipulators_keep_frame (m : manager) (fuel : nat) :
  (forall o m', reservePushIndex fuel m = Some (o, m') -> frame m' = frame m)
  /\ (forall g i o m', commitPushIndex fuel m g i = Some (o, m') -> frame m' = frame m)
  /\ (forall o m', reservePopIndex fuel m = Some (o, m') -> frame m' = frame m)
  /\ (forall g i o m', commitPopIndex fuel m g i = Some (o, m') -> frame m' = frame m)
  /\ (forall g i o m', clearPopIndex fuel m g i = Some (o, m') -> frame m' = frame m)
  /\ (forall g i o m',
        abortPushIndexReservation fuel m g i = Some (o, m') -> frame m' = frame m)
  /\ (forall o m', disable fuel m = Some (o, m') -> frame m' = frame m)
  /\ (forall o m', enable fuel m = Some (o, m') -> frame m' = frame m).
Proof.
  repeat split; intros.
  - eapply frame_run; [apply frame_reservePushIndex_step|eassumption].
  - eapply frame_run; [apply frame_commit_step|eassumption].
  - eapply frame_run; [apply frame_reservePopIndex_step|eassumption].
  - eapply frame_run; [apply frame_commit_step|eassumption].
  - eapply frame_run; [apply frame_clearPopIndex_step|eassumption].
  - eapply frame_run; [apply frame_abortPushIndexReservation_step|eassumption].
  - eapply frame_run; [apply frame_disable_step|eassumption].
  - eapply frame_run; [apply frame_enable_step|eassumption].
Qed.

Lemma step_keeps_frame c c' :
  step c c' -> frame c'.1 = frame c.1 /\ List.length c'.2 = List.length c.2.
Proof.
  intros [m ts t th m' th' Ht Hstep]. simpl.
  split; [eapply frame_thread_step, Hstep|apply length_insert].
Qed.

(** X25: in every configuration that [N] threads reach from a fresh manager
    of a given capacity, the manager still has that capacity, the constants
    the constructor derived from it and exactly that many elements, and
    there are still [N] threads. *)
Theorem reachable_keeps_frame (capacity : Z) (N : nat) (c : config) :
  reachable capacity N c ->
  d_capacity c.1 = capacity
  /\ constants_ok c.1
  /\ List.length (d_states c.1) = Z.to_nat capacity
  /\ List.length c.2 = N.
Proof.
  intros (c0 & H0 & Hrun).
  assert (Hinit : frame c0.1
                  = (capacity, numRepresentableGenerations capacity - 1,
                     numRepresentableGenerations capacity * capacity - 1,
                     Z.to_nat capacity)
                  /\ List.length c0.2 = N /\ 0 < capacity <= e_MAX_CAPACITY).
  { unfold initial in H0.
    destruct (create capacity) as [m|] eqn:Hm; [|discriminate].
    injection H0 as <-. simpl.
    assert (Hc : 0 < capacity <= e_MAX_CAPACITY).
    { unfold create in Hm.
      destruct (Z.ltb_spec 0 capacity); [|discriminate].
      destruct (Z.leb_spec capacity e_MAX_CAPACITY); [|discriminate]. lia. }
    rewrite create_Some in Hm by assumption. injection Hm as <-.
    unfold frame. simpl. by rewrite !length_replicate. }
  assert (Hfinal : frame c.1 = frame c0.1 /\ List.length c.2 = List.length c0.2).
  { clear Hinit H0. induction Hrun as [|c1 c2 c3 Hs _ IH]; [auto|].
    destruct (step_keeps_frame _ _ Hs) as [Hf Hl].
    destruct IH as [IHf IHl]. split; congruence. }
  destruct Hinit as (Hf0 & Hn & Hc). destruct Hfinal as [Hf Hl].
  rewrite Hf0 in Hf. unfold frame in Hf. injection Hf as Hcap Hg Hci Hlen.
  repeat split; try congruence; lia.
Qed.

Lemma reachable_keeps_frame_witness :
  exists c,
    schedule (replicate 20 (0%nat, Call_reservePush)
              ++ replicate 13 (1%nat, Call_reservePop)
              ++ replicate 3 (0%nat, Call_reservePush))
             (Manager 0 0 2 (2 ^ 30 - 1) (2 ^ 31 - 1) [0; 0], [T_idle; T_idle])
    = Some c
    /\ d_capacity c.1 = 2
    /\ constants_ok c.1
    /\ List.length (d_states c.1) = Z.to_nat 2
    /\ List.length c.2 = 2%nat.
Proof.
  eexists. split; [vm_compute; reflexivity|].
  apply (reachable_keeps_frame 2 2).
  eexists. split; [vm_compute; reflexivity|].
  apply (schedule_sound (replicate 20 (0%nat, Call_reservePush)
                         ++ replicate 13 (1%nat, Call_reservePop)
                         ++ replicate 3 (0%nat, Call_reservePush))).
  vm_compute. reflexivity.
Defined.

(** ** A manager as the constructor leaves it *)

(** X26: for every capacity the constructor accepts, the new manager is
    enabled and of length 0, [reservePopIndex] returns [e_QUEUE_EMPTY] and
    changes nothing, and [reservePushIndex] reserves generation 0, index 0
    and moves the push cursor to combined index 1. *)
Theorem fresh_manager (capacity : Z) (m : manager) (fuel : nat) :
  create capacity = Some m ->
  isEnabled m = true
  /\ length m = Some 0
  /\ reservePopIndex (S (S fuel)) m = Some (Returned (Refused e_QUEUE_EMPTY), m)
  /\ exists m',
       reservePushIndex (S (S (S fuel))) m = Some (Returned (Reserved 0 0), m')
       /\ d_pushIndex m' = 1
       /\ d_states m' !! 0%nat = Some (encodeElementState 0 e_WRITING).
Proof.
  intros Hm.
  pose proof (create_constants_ok _ _ Hm) as Hok.
  destruct (constants_ok_bounds m Hok) as (Hc & Hg & Hci & Hb).
  assert (Hfields : d_pushIndex m = 0 /\ d_popIndex m = 0
                    /\ d_states m = replicate (Z.to_nat (d_capacity m)) 0).
  { unfold create in Hm. destruct (_ && _); [|discriminate].
    by injection Hm as <-. }
  destruct Hfields as (Hpush & Hpop & Hst).
  assert (Hs : d_states m !! Z.to_nat 0 = Some 0).
  { rewrite Hst. apply lookup_replicate_2. lia. }
  split; [unfold isEnabled; by rewrite Hpush|].
  split.
  { rewrite length_steady_state; rewrite ?Hpush, ?Hpop; try assumption;
      try (change (discardDisabledFlag 0) with 0; lia).
    reflexivity. }
  split.
  { assert (E : reservePopIndex_step m (PopLoop 0)
                = (m, PopRet (Refused e_QUEUE_EMPTY))).
    { unfold reservePopIndex_step.
      rewrite Z.div_0_l, Z.mod_0_l by lia.
      rewrite (testAndSwap_state_miss _ _ _ _ 0 Hs) by discriminate.
      reflexivity. }
    unfold reservePopIndex.
    rewrite run_step by reflexivity.
    change (reservePopIndex_step m PopLoad) with (m, PopLoop (d_popIndex m)).
    rewrite Hpop. cbn [fst snd].
    rewrite run_step, E by reflexivity. by apply run_final. }
  exists (set_pushIndex
            (set_states m
               (<[Z.to_nat 0 := encodeElementState 0 e_WRITING]> (d_states m)))
            1).
  split.
  { assert (Hn : nextCombinedIndex m 0 = 1)
      by (unfold nextCombinedIndex; apply Z.mod_small; lia).
    rewrite reservePushIndex_hit; rewrite Hpush, ?Z.div_0_l, ?Z.mod_0_l;
      try lia; [by rewrite Hn|exact Hs]. }
  simpl. split; [reflexivity|].
  apply list_lookup_insert_eq. eapply lookup_lt_Some, Hs.
Qed.

Lemma fresh_manager_witness :
  exists m,
    create 3 = Some m
    /\ isEnabled m = true
    /\ length m = Some 0
    /\ reservePopIndex 2 m = Some (Returned (Refused e_QUEUE_EMPTY), m)
    /\ exists m',
         reservePushIndex 3 m = Some (Returned (Reserved 0 0), m')
         /\ d_pushIndex m' = 1
         /\ d_states m' !! 0%nat = Some (encodeElementState 0 e_WRITING).
Proof.
  eexists. split; [vm_compute; reflexivity|].
  match goal with
  | |- isEnabled ?m = true /\ _ => apply (fresh_manager 3 m 0)
  end.
  vm_compute. reflexivity.
Defined.

(** ** The cursors are hints: an element already taken is stepped over *)








